(** * Confluence space exporter: a shallow embedding of
      [confluence-exporter.py] and the properties of its pipeline.

    Python [str] values are sequences of Unicode code points; they are
    modelled as lists of code points ([N]), so that [len], slicing and the
    character classes of [re] mean what they mean in the source. *)

From Stdlib Require Import NArith ZArith Ascii String DecimalString.
From stdpp Require Import gmap list fin_maps.

Local Open Scope N_scope.

(** ** Python strings *)

Abbreviation pychar := N (only parsing).
Abbreviation pystr := (list N) (only parsing).

(** An ASCII literal as a Python string. *)
Definition of_string (s : string) : pystr :=
  map N_of_ascii (list_ascii_of_string s).

Module Str.

(** [s.startswith(p)] *)
Fixpoint startswith (p s : pystr) : bool :=
  match p, s with
  | [], _ => true
  | _ :: _, [] => false
  | a :: p', b :: s' => (a =? b) && startswith p' s'
  end.

(** [p in s]: [p] occurs in [s] as a substring. *)
Fixpoint occurs (p s : pystr) : bool :=
  startswith p s ||
  match s with
  | [] => false
  | _ :: s' => occurs p s'
  end.

(** The scan of [s.replace(old, new)] for a non-empty [old]: occurrences are
    found left to right and do not overlap; [skip] counts the characters of
    the occurrence just replaced that are still to be passed over. *)
Fixpoint replace_scan (old new : pystr) (skip : nat) (s : pystr) : pystr :=
  match s with
  | [] => []
  | c :: t =>
      match skip with
      | S k => replace_scan old new k t
      | O =>
          if startswith old s
          then new ++ replace_scan old new (Nat.pred (length old)) t
          else c :: replace_scan old new 0 t
      end
  end.

(** [s.replace(old, new)].  With an empty [old], Python inserts [new]
    before every character and at the end. *)
Definition replace (old new s : pystr) : pystr :=
  match old with
  | [] => new ++ flat_map (fun c => c :: new) s
  | _ :: _ => replace_scan old new 0 s
  end.

(** [s.lstrip(chars)], [s.rstrip(chars)] and [s.strip(chars)], the set
    [chars] given by its membership test. *)
Fixpoint lstrip (f : pychar -> bool) (s : pystr) : pystr :=
  match s with
  | [] => []
  | c :: t => if f c then lstrip f t else s
  end.

Definition rstrip (f : pychar -> bool) (s : pystr) : pystr :=
  reverse (lstrip f (reverse s)).

Definition strip (f : pychar -> bool) (s : pystr) : pystr :=
  rstrip f (lstrip f s).

(** [sep.join(parts)] *)
Fixpoint join (sep : pystr) (parts : list pystr) : pystr :=
  match parts with
  | [] => []
  | [x] => x
  | x :: rest => x ++ sep ++ join sep rest
  end.

End Str.

(** ** Character classes *)

Definition underscore : pychar := 95.
Definition space : pychar := 32.
Definition newline : pychar := 10.

(** [invalid_chars]: the code points of less-than, greater-than, colon,
    double quote, slash, backslash, vertical bar, question mark, asterisk. *)
Definition invalid_chars : pystr := [60; 62; 58; 34; 47; 92; 124; 63; 42].

Definition is_invalid (c : pychar) : bool :=
  existsb (N.eqb c) invalid_chars.

(** The class [\s] of [re] on [str] patterns: the code points for which
    [str.isspace] holds. *)
Definition is_space (c : pychar) : bool :=
  ((9 <=? c) && (c <=? 13)) || ((28 <=? c) && (c <=? 32))
  || (c =? 133) || (c =? 160) || (c =? 5760)
  || ((8192 <=? c) && (c <=? 8202))
  || (c =? 8232) || (c =? 8233) || (c =? 8239) || (c =? 8287)
  || (c =? 12288).

(** The class [[\s_]]. *)
Definition is_space_or_underscore (c : pychar) : bool :=
  is_space c || (c =? underscore).

(** The set of [name.strip('_ ')]. *)
Definition is_strip_char (c : pychar) : bool :=
  (c =? underscore) || (c =? space).

(** ** Name sanitizer *)

(** [for char in invalid_chars: name = name.replace(char, '_')] *)
Definition replace_invalid (name : pystr) : pystr :=
  fold_left (fun name char => Str.replace [char] [underscore] name)
            invalid_chars name.

(** [re.sub(r'[\s_]+', '_', name)]: every maximal run of the class becomes one
    underscore.  [in_run] tells that the previous character was in the class. *)
Fixpoint collapse_runs (in_run : bool) (name : pystr) : pystr :=
  match name with
  | [] => []
  | c :: t =>
      if is_space_or_underscore c
      then (if in_run then collapse_runs true t
            else underscore :: collapse_runs true t)
      else c :: collapse_runs false t
  end.

Definition truncate (name : pystr) : pystr :=
  if (100 <? length name)%nat then take 100 name else name.

Definition sanitize_filename (name : pystr) : pystr :=
  let name := replace_invalid name in
  let name := collapse_runs false name in
  let name := Str.strip is_strip_char name in
  truncate name.

(** ** Data model *)

(** A page as returned by the listing, with the fields the exporter reads:
    [page['id']], [page['title']], the ids of [page['ancestors']] in order,
    [page['body']['storage']['value']], the names of
    [page['metadata']['labels']['results']] and [page['version']['when']].
    A field read with [.get] may be absent. *)
Record Page := mkPage {
  page_id : pystr;
  page_title : pystr;
  page_ancestors : list pystr;
  page_body : option pystr;
  page_labels : list pystr;
  page_when : option pystr
}.

#[global] Instance Page_eq_dec : EqDecision Page.
Proof. solve_decision. Defined.

(** An entry of the attachment listing: [attachment['title']] and
    [attachment['_links']['download']]. *)
Record Attachment := mkAttachment {
  att_title : pystr;
  att_download : pystr
}.

(** ** Hierarchy builder *)

(** [{'roots': roots, 'children_map': children_map}] *)
Record Hierarchy := mkHierarchy {
  roots : list Page;
  children_map : gmap pystr (list Page)
}.

(** [export_page_ids = {page['id'] for page in pages}] *)
Definition export_page_ids (pages : list Page) : gset pystr :=
  list_to_set (page_id <$> pages).

(** The immediate parent, [ancestors[-1]['id']], when there are ancestors. *)
Definition parent_of (page : Page) : option pystr :=
  last (page_ancestors page).

(** The body of the loop of [build_hierarchy]. *)
Definition place_page (ids : gset pystr) (h : Hierarchy) (page : Page)
  : Hierarchy :=
  match parent_of page with
  | None => mkHierarchy (roots h ++ [page]) (children_map h)
  | Some parent_id =>
      if decide (parent_id ∈ ids)
      then mkHierarchy (roots h)
             (<[parent_id := default [] (children_map h !! parent_id) ++ [page]]>
                (children_map h))
      else mkHierarchy (roots h ++ [page]) (children_map h)
  end.

Definition build_hierarchy (pages : list Page) : Hierarchy :=
  fold_left (place_page (export_page_ids pages)) pages (mkHierarchy [] ∅).

(** ** Insertion-ordered dictionaries

    [url_mapping] is iterated with [.items()], so its order is kept. *)
Module Dict.

Definition t := list (pystr * pystr).

(** [d[k] = v]: an existing key keeps its position. *)
Fixpoint set (k v : pystr) (d : t) : t :=
  match d with
  | [] => [(k, v)]
  | (k', v') :: rest =>
      if decide (k = k') then (k, v) :: rest else (k', v') :: set k v rest
  end.

(** [d.get(k)] *)
Fixpoint get (k : pystr) (d : t) : option pystr :=
  match d with
  | [] => None
  | (k', v') :: rest => if decide (k = k') then Some v' else get k rest
  end.

Definition keys (d : t) : list pystr := fst <$> d.

End Dict.

(** ** Content transformer: the parts that do not depend on the libraries *)

(** [for original, local in url_mapping.items():
       md_content = md_content.replace(original, local)] *)
Definition substitute_links (url_mapping : Dict.t) (md_content : pystr) : pystr :=
  fold_left (fun md '(original, local) => Str.replace original local md)
            url_mapping md_content.

(** [re.sub(r'\n{3,}', '\n\n', md_content)]; [run] counts the newlines read
    since the last other character. *)
Fixpoint squeeze_newlines (run : nat) (s : pystr) : pystr :=
  match s with
  | [] => repeat newline (Nat.min run 2)
  | c :: t =>
      if c =? newline then squeeze_newlines (S run) t
      else repeat newline (Nat.min run 2) ++ c :: squeeze_newlines 0 t
  end.

Definition gt_sign : pychar := 62.
Definition dquote : pychar := 34.

Definition drawio_open : pystr := of_string "<ac:structured-macro".
Definition drawio_name : pystr :=
  of_string "ac:name=" ++ [dquote] ++ of_string "drawio" ++ [dquote].
Definition drawio_close : pystr := of_string "</ac:structured-macro>".

(** The replacement text of [replace_drawio], code point by code point as the
    source file has it. *)
Definition drawio_placeholder : pystr :=
  [newline; newline] ++ of_string "> " ++ [240; 376; 8220; 352]
  ++ of_string " **Draw.io Diagram** - See attachments folder for `.drawio` file"
  ++ [newline; newline].

(** Index of the first occurrence of [p] in [s]. *)
Fixpoint find (p s : pystr) : option nat :=
  if Str.startswith p s then Some O
  else match s with
       | [] => None
       | _ :: t => S <$> find p t
       end.

(** Length of the match of [drawio_pattern] at the start of [s], if any: the
    opening literal, a tag without [>] that contains the name attribute, the
    first [>], then lazily up to the first closing literal. *)
Definition match_drawio (s : pystr) : option nat :=
  if Str.startswith drawio_open s then
    let rest := drop (length drawio_open) s in
    match find [gt_sign] rest with
    | None => None
    | Some i =>
        if Str.occurs drawio_name (take i rest) then
          match find drawio_close (drop (S i) rest) with
          | None => None
          | Some j =>
              Some (length drawio_open + i + 1 + j + length drawio_close)%nat
          end
        else None
    end
  else None.

Fixpoint drawio_scan (skip : nat) (s : pystr) : pystr :=
  match s with
  | [] => []
  | c :: t =>
      match skip with
      | S k => drawio_scan k t
      | O =>
          match match_drawio s with
          | Some n => drawio_placeholder ++ drawio_scan (Nat.pred n) t
          | None => c :: drawio_scan 0 t
          end
      end
  end.

Definition handle_drawio_embeds (html_content : pystr) : pystr :=
  drawio_scan 0 html_content.

(** ** Dates *)

(** A [datetime]: its wall-clock value in microseconds, and the UTC offset of
    its [tzinfo] when it has one. *)
Record datetime := mkDatetime {
  wall : Z;
  tzinfo : option Z
}.

(** [d.replace(tzinfo=tz)] *)
Definition replace_tzinfo (d : datetime) (tz : option Z) : datetime :=
  mkDatetime (wall d) tz.

(** [a >= b]: two naive values compare by wall clock, two aware ones by
    instant, and a naive one against an aware one raises [TypeError]
    ([None]). *)
Definition datetime_ge (a b : datetime) : option bool :=
  match tzinfo a, tzinfo b with
  | None, None => Some (wall b <=? wall a)%Z
  | Some oa, Some ob => Some (wall b - ob <=? wall a - oa)%Z
  | _, _ => None
  end.

(** The attachment assigns to [url_mapping[k]] when it is downloaded. *)
Definition writes_key (attachment : Attachment) (k : pystr) : Prop :=
  att_title attachment = k \/ att_download attachment = k.

(** ** The exporter

    [pathlib], the HTTP session, the file system, the remote listing and
    [markdownify] are collaborators of the program: the exporter is written
    over them.  [None] stands for a raised exception. *)

(** What the exporter does to the file system, in order. *)
Inductive FsEvent (Path : Type) :=
| Mkdir (p : Path)
| WriteBytes (p : Path) (content : list N)
| WriteText (p : Path) (content : pystr).
Arguments Mkdir {Path} p.
Arguments WriteBytes {Path} p content.
Arguments WriteText {Path} p content.

(** The collaborators, as the exporter sees them. *)
Class Collaborators := {
  (** [pathlib.Path] *)
  Path : Type;
  (** [parent / name] *)
  joinpath : Path -> pystr -> Path;
  (** [self.confluence.url] *)
  base_url : pystr;
  (** [self.confluence.get_attachments_from_content(page_id).get('results', [])] *)
  get_attachments : pystr -> option (list Attachment);
  (** [self.confluence._session.get(full_url)] with [raise_for_status()] *)
  session_get : pystr -> option (list N);
  (** [path.mkdir(parents=True, exist_ok=True)] succeeds *)
  mkdir_ok : Path -> bool;
  (** [open(path, mode)] and [f.write(content)] succeed *)
  write_ok : Path -> bool;
  (** [markdownify.markdownify(html, heading_style="ATX", bullets="-",
      strip=['script', 'style'])] *)
  markdownify : pystr -> pystr
}.

Section Exporter.

Context `{Collaborators}.

(** *** Path assigner *)

(** [process_page(page, parent_path)], threading [self.page_paths];
    [depth] bounds the nesting of the recursive calls ([None]: the bound
    is exceeded). *)
Fixpoint process_page (depth : nat) (cm : gmap pystr (list Page))
    (page : Page) (parent_path : Path) (page_paths : gmap pystr Path)
  : option (gmap pystr Path) :=
  match depth with
  | O => None
  | S d =>
      let page_name := sanitize_filename (page_title page) in
      let page_path := joinpath parent_path page_name in
      let page_paths := <[page_id page := page_path]> page_paths in
      let children := default [] (cm !! page_id page) in
      fold_left
        (fun acc child =>
           match acc with
           | Some paths => process_page d cm child page_path paths
           | None => None
           end)
        children (Some page_paths)
  end.

Definition determine_page_paths (depth : nat) (hierarchy : Hierarchy)
    (output_dir : Path) (page_paths : gmap pystr Path)
  : option (gmap pystr Path) :=
  fold_left
    (fun acc root_page =>
       match acc with
       | Some paths =>
           process_page depth (children_map hierarchy) root_page
                        output_dir paths
       | None => None
       end)
    (roots hierarchy) (Some page_paths).

(** *** Attachment downloader *)

Definition slash : pychar := 47.

(** [f"attachments/{sanitize_filename(filename)}"] *)
Definition local_reference (filename : pystr) : pystr :=
  of_string "attachments/" ++ sanitize_filename filename.

(** The body of the loop over [results]; the state is the events so far
    and [url_mapping]. *)
Definition download_one (attachments_dir : Path)
    (st : list (FsEvent Path) * Dict.t) (attachment : Attachment)
  : list (FsEvent Path) * Dict.t :=
  let filename := att_title attachment in
  let download_url := att_download attachment in
  let full_url :=
    if Str.startswith [slash] download_url
    then base_url ++ download_url else download_url in
  let local_path := joinpath attachments_dir (sanitize_filename filename) in
  match session_get full_url with
  | None => st
  | Some content =>
      if write_ok local_path then
        (st.1 ++ [WriteBytes local_path content],
         Dict.set download_url (local_reference filename)
           (Dict.set filename (local_reference filename) st.2))
      else st
  end.

(** The outer [try] block once [results] is known: nothing is done for an
    empty listing, and a failing [mkdir] leaves the mapping empty. *)
Definition download_listed (attachments_dir : Path)
    (results : list Attachment) : list (FsEvent Path) * Dict.t :=
  match results with
  | [] => ([], [])
  | _ :: _ =>
      if mkdir_ok attachments_dir
      then fold_left (download_one attachments_dir) results
                     ([Mkdir attachments_dir], [])
      else ([], [])
  end.

Definition download_attachments (page_id : pystr) (page_path : Path)
  : list (FsEvent Path) * Dict.t :=
  let attachments_dir := joinpath page_path (of_string "attachments") in
  match get_attachments page_id with
  | None => ([], [])
  | Some results => download_listed attachments_dir results
  end.

(** The attachment is fetched and written: the inner [try] block reaches
    the two assignments to [url_mapping]. *)
Definition downloaded (attachments_dir : Path) (attachment : Attachment)
  : bool :=
  let download_url := att_download attachment in
  let full_url :=
    if Str.startswith [slash] download_url
    then base_url ++ download_url else download_url in
  match session_get full_url with
  | None => false
  | Some _ =>
      write_ok (joinpath attachments_dir
                         (sanitize_filename (att_title attachment)))
  end.

(** Every entry of the mapping was stored by a downloaded attachment whose
    bytes are written. *)
Definition entries_justified (dir : Path) (seen : list Attachment)
    (st : list (FsEvent Path) * Dict.t) : Prop :=
  forall k v, Dict.get k st.2 = Some v ->
    exists a content,
      a ∈ seen /\ downloaded dir a = true /\ writes_key a k /\
      v = local_reference (att_title a) /\
      WriteBytes (joinpath dir (sanitize_filename (att_title a))) content
        ∈ st.1.

(** *** Content transformer *)

Definition convert_to_markdown (html_content : pystr) (url_mapping : Dict.t)
  : pystr :=
  let md_content := markdownify html_content in
  let md_content := substitute_links url_mapping md_content in
  squeeze_newlines 0 md_content.

(** *** Page export *)

(** [f"# {page_title}\n\n{md_content}"] *)
Definition with_heading (page_title md_content : pystr) : pystr :=
  of_string "# " ++ page_title ++ [newline; newline] ++ md_content.

(** [f"---\nlabels: {', '.join(label_names)}\n---\n\n{md_content}"] *)
Definition with_front_matter (label_names : list pystr) (md_content : pystr)
  : pystr :=
  of_string "---" ++ [newline] ++ of_string "labels: "
  ++ Str.join (of_string ", ") label_names
  ++ [newline] ++ of_string "---" ++ [newline; newline] ++ md_content.

(** The text [export_page] writes to [index.md]. *)
Definition page_markdown (page : Page) (url_mapping : Dict.t) : pystr :=
  let html_content := default [] (page_body page) in
  let html_content := handle_drawio_embeds html_content in
  let md_content := convert_to_markdown html_content url_mapping in
  let md_content := with_heading (page_title page) md_content in
  match page_labels page with
  | [] => md_content
  | label_names => with_front_matter label_names md_content
  end.

(** [export_page(page)]: the events on the file system, or [None] when
    [self.page_paths[page_id]], the [mkdir] or the final write raises. *)
Definition export_page (page_paths : gmap pystr Path) (page : Page)
  : option (list (FsEvent Path)) :=
  match page_paths !! page_id page with
  | None => None
  | Some page_path =>
      if mkdir_ok page_path then
        let '(events, url_mapping) :=
          download_attachments (page_id page) page_path in
        let md_content := page_markdown page url_mapping in
        let md_file := joinpath page_path (of_string "index.md") in
        if write_ok md_file
        then Some (Mkdir page_path :: events ++ [WriteText md_file md_content])
        else None
      else None
  end.

End Exporter.

(** ** Page fetcher *)

(** The remote listing and the date parser. *)
Class PageSource := {
  (** [self.confluence.get_all_pages_from_space(space_key, start=start,
      limit=limit, expand=...)] *)
  get_all_pages_from_space : nat -> nat -> list Page;
  (** [datetime.fromisoformat]; [None] is [ValueError]. *)
  fromisoformat : pystr -> option datetime
}.

Section Fetcher.

Context `{PageSource}.

Definition limit : nat := 50.

(** The [while True] loop; [fuel] bounds the number of requests. *)
Fixpoint fetch_loop (fuel : nat) (start : nat) (all_pages : list Page)
  : option (list Page) :=
  match fuel with
  | O => None
  | S f =>
      match get_all_pages_from_space start limit with
      | [] => Some all_pages
      | pages =>
          let all_pages := all_pages ++ pages in
          if (length pages <? limit)%nat then Some all_pages
          else fetch_loop f (start + limit)%nat all_pages
      end
  end.

Definition letter_Z : pychar := 90.

(** The body of the filtering loop; [None] is an exception that the
    [except ValueError] does not catch. *)
Definition filter_step (since_date : datetime)
    (acc : option (list Page)) (page : Page) : option (list Page) :=
  match acc with
  | None => None
  | Some filtered_pages =>
      match default [] (page_when page) with
      | [] => Some (filtered_pages ++ [page])
      | modified_str =>
          match fromisoformat
                  (Str.replace [letter_Z] (of_string "+00:00") modified_str)
          with
          | None => Some (filtered_pages ++ [page])
          | Some modified_date =>
              let since_aware :=
                replace_tzinfo since_date (tzinfo modified_date) in
              match datetime_ge modified_date since_aware with
              | Some true => Some (filtered_pages ++ [page])
              | Some false => Some filtered_pages
              | None => None
              end
          end
      end
  end.

Definition fetch_all_pages (since_date : option datetime) (fuel : nat)
  : option (list Page) :=
  match fetch_loop fuel 0 [] with
  | None => None
  | Some all_pages =>
      match since_date with
      | Some since => fold_left (filter_step since) all_pages (Some [])
      | None => Some all_pages
      end
  end.

End Fetcher.

(** ** Index and orchestration *)

(** [a < b] on [str]: code point by code point, a proper prefix first. *)
Fixpoint str_lt (a b : pystr) : bool :=
  match a, b with
  | _, [] => false
  | [], _ :: _ => true
  | x :: a', y :: b' => (x <? y) || ((x =? y) && str_lt a' b')
  end.

(** [sorted(pages, key=lambda p: p['title'])]: the sort is stable, so a page
    goes before the first page of the sorted rest whose title is not smaller
    than its own. *)
Fixpoint insert_by_title (page : Page) (sorted_pages : list Page) : list Page :=
  match sorted_pages with
  | [] => [page]
  | other :: rest =>
      if str_lt (page_title other) (page_title page)
      then other :: insert_by_title page rest
      else page :: other :: rest
  end.

Definition sorted_by_title (pages : list Page) : list Page :=
  fold_right insert_by_title [] pages.

(** [str(n)] for a length. *)
Definition decimal (n : nat) : pystr :=
  of_string (NilZero.string_of_uint (Nat.to_uint n)).

(** What [create_index] further needs of [pathlib] and of the exporter. *)
Class IndexCollaborators (C : Collaborators) := {
  (** [self.space_key] *)
  space_key : pystr;
  (** [path.relative_to(other)]; [None] is [ValueError]. *)
  relative_to : Path -> Path -> option Path;
  (** [str(path)], as an f-string formats a path *)
  path_str : Path -> pystr
}.

Section Orchestrator.

Context `{C : Collaborators} `{Src : PageSource} `{I : !IndexCollaborators C}.

(** [f"{indent}- [{page['title']}]({relative_path}/index.md)\n"] *)
Definition index_line (level : nat) (page_title : pystr)
    (relative_path : Path) : pystr :=
  concat (repeat (of_string "  ") level)
  ++ of_string "- [" ++ page_title ++ of_string "]("
  ++ path_str relative_path ++ of_string "/index.md)" ++ [newline].

(** [add_page_to_index(page, level)], threading [index_content]; [depth]
    bounds the nesting of the calls, and [None] is also the [KeyError] of
    [self.page_paths[...]] and the [ValueError] of [relative_to]. *)
Fixpoint add_page_to_index (depth : nat) (page_paths : gmap pystr Path)
    (cm : gmap pystr (list Page)) (output_dir : Path)
    (page : Page) (level : nat) (index_content : pystr) : option pystr :=
  match depth with
  | O => None
  | S d =>
      match page_paths !! page_id page with
      | None => None
      | Some page_path =>
          match relative_to page_path output_dir with
          | None => None
          | Some relative_path =>
              let index_content :=
                index_content
                ++ index_line level (page_title page) relative_path in
              let children := default [] (cm !! page_id page) in
              fold_left
                (fun acc child =>
                   match acc with
                   | Some content =>
                       add_page_to_index d page_paths cm output_dir
                                         child (S level) content
                   | None => None
                   end)
                (sorted_by_title children) (Some index_content)
          end
      end
  end.

(** The three lines that open [INDEX.md]. *)
Definition index_header (pages : list Page) : pystr :=
  of_string "# " ++ space_key ++ of_string " Space Export" ++ [newline; newline]
  ++ of_string "Exported " ++ decimal (length pages) ++ of_string " pages."
  ++ [newline; newline]
  ++ of_string "## Page Structure" ++ [newline; newline].

(** [create_index(pages, hierarchy)]: the write of [INDEX.md]. *)
Definition create_index (depth : nat) (page_paths : gmap pystr Path)
    (output_dir : Path) (pages : list Page) (hierarchy : Hierarchy)
  : option (list (FsEvent Path)) :=
  match
    fold_left
      (fun acc root =>
         match acc with
         | Some content =>
             add_page_to_index depth page_paths (children_map hierarchy)
                               output_dir root 0 content
         | None => None
         end)
      (sorted_by_title (roots hierarchy)) (Some (index_header pages))
  with
  | None => None
  | Some index_content =>
      let index_file := joinpath output_dir (of_string "INDEX.md") in
      if write_ok index_file
      then Some [WriteText index_file index_content]
      else None
  end.

(** [for page in pages: self.export_page(page)] *)
Definition export_pages (page_paths : gmap pystr Path) (pages : list Page)
    (events : list (FsEvent Path)) : option (list (FsEvent Path)) :=
  fold_left
    (fun acc page =>
       match acc with
       | Some events =>
           match export_page page_paths page with
           | Some page_events => Some (events ++ page_events)
           | None => None
           end
       | None => None
       end)
    pages (Some events).

(** [export_space()], for an exporter made with [output_dir] and
    [since_date]; [fuel] bounds the requests of the fetch and [depth] the
    nesting of the recursive calls. *)
Definition export_space (output_dir : Path) (since_date : option datetime)
    (fuel depth : nat) : option (list (FsEvent Path)) :=
  if mkdir_ok output_dir then
    match fetch_all_pages since_date fuel with
    | None => None
    | Some [] => Some [Mkdir output_dir]
    | Some pages =>
        let hierarchy := build_hierarchy pages in
        match determine_page_paths depth hierarchy output_dir ∅ with
        | None => None
        | Some page_paths =>
            match export_pages page_paths pages [Mkdir output_dir] with
            | None => None
            | Some events =>
                match create_index depth page_paths output_dir pages hierarchy
                with
                | None => None
                | Some index_events => Some (events ++ index_events)
                end
            end
        end
    end
  else None.

End Orchestrator.

(** ** Vocabulary of the statements *)

(** A character that survives sanitizing: not reserved, not whitespace, not
    an underscore. *)
Definition is_solid (c : pychar) : bool :=
  negb (is_invalid c) && negb (is_space_or_underscore c).

(** A name in sanitized form: no reserved character, no whitespace, no
    underscore next to another; [prev] tells that an underscore precedes. *)
Fixpoint tidy (prev : bool) (s : pystr) : bool :=
  match s with
  | [] => true
  | c :: t =>
      negb (is_invalid c) && negb (is_space c) &&
      (if c =? underscore then negb prev && tidy true t else tidy false t)
  end.

(** The front-matter block of [index.md], with the blank line after it:
    absent without labels. *)
Definition front_matter (label_names : list pystr) : pystr :=
  match label_names with
  | [] => []
  | _ :: _ =>
      of_string "---" ++ [newline] ++ of_string "labels: "
      ++ Str.join (of_string ", ") label_names
      ++ [newline] ++ of_string "---" ++ [newline; newline]
  end.

(** The heading line of [index.md], with the blank line after it. *)
Definition title_heading (page_title : pystr) : pystr :=
  of_string "# " ++ page_title ++ [newline; newline].


(** ** Vocabulary of the date filter *)

Section SinceVocabulary.

Context `{PageSource}.

(** The text handed to the parser: [modified_str.replace('Z', '+00:00')]. *)
Definition iso_text (modified_str : pystr) : pystr :=
  Str.replace [90] (of_string "+00:00") modified_str.

Definition timestamp_missing (page : Page) : Prop :=
  page_when page = None.

Definition timestamp_unparsable (page : Page) : Prop :=
  exists s, page_when page = Some s /\ fromisoformat (iso_text s) = None.

(** The timestamp parses to a moment on or after [since], the date being
    read in the time zone of the timestamp. *)
Definition modified_on_or_after (since : datetime) (page : Page) : Prop :=
  exists s d, page_when page = Some s /\
              fromisoformat (iso_text s) = Some d /\
              (wall since <= wall d)%Z.

(** The three cases as one test. *)
Definition since_includes (since : datetime) (page : Page) : bool :=
  match page_when page with
  | None => true
  | Some s =>
      match fromisoformat (iso_text s) with
      | None => true
      | Some d => (wall since <=? wall d)%Z
      end
  end.

End SinceVocabulary.

(** A remote space with finitely many pages, listed [limit] at a time. *)
Definition paged (space : list Page) (start limit : nat) : list Page :=
  take limit (drop start space).

(** ** Vocabulary of the hierarchy *)

(** [page] is found once in [l]. *)
Definition occurs_once (page : Page) (l : list Page) : Prop :=
  exists l1 l2, l = l1 ++ page :: l2 /\ (page ∉ l1) /\ (page ∉ l2).

(** The two branches of [build_hierarchy] that append to [roots]. *)
Definition is_root (ids : gset pystr) (page : Page) : Prop :=
  match parent_of page with
  | None => True
  | Some parent_id => parent_id ∉ ids
  end.

(** The branch that appends to [children_map[a]]. *)
Definition is_child_of (ids : gset pystr) (a : pystr) (page : Page) : Prop :=
  parent_of page = Some a /\ a ∈ ids.

#[global] Instance is_root_dec ids page : Decision (is_root ids page).
Proof. unfold is_root. destruct (parent_of page); apply _. Defined.

#[global] Instance is_child_of_dec ids a page : Decision (is_child_of ids a page).
Proof. unfold is_child_of. apply _. Defined.

Section ForestVocabulary.

Context `{Collaborators}.
Variable cm : gmap pystr (list Page).

(** [c] is listed under [a] in the children map. *)
Definition child_of (c : Page) (a : pystr) : Prop :=
  exists l, cm !! a = Some l /\ c ∈ l.

(** [page_path = parent_path / page_name] *)
Definition step_path (parent_path : Path) (page : Page) : Path :=
  joinpath parent_path (sanitize_filename (page_title page)).

(** Every child with a path has a parent with a path, one segment up. *)
Definition links_ok (paths : gmap pystr Path) : Prop :=
  forall c a x, child_of c a -> paths !! page_id c = Some x ->
    exists y, paths !! a = Some y /\ x = step_path y c.

(** A key that [paths'] adds to [paths] is [direct], or is the id of a
    child whose parent is added too. *)
Definition added_below (direct : pystr -> Prop)
    (paths paths' : gmap pystr Path) : Prop :=
  forall k, paths !! k = None -> is_Some (paths' !! k) ->
    direct k \/
    exists c a, child_of c a /\ page_id c = k /\
                paths !! a = None /\ is_Some (paths' !! a).

(** The children of every parent that [paths'] adds have a path. *)
Definition children_done (paths paths' : gmap pystr Path) : Prop :=
  forall c a, child_of c a -> paths !! a = None -> is_Some (paths' !! a) ->
    is_Some (paths' !! page_id c).

(** What a call of [process_page] on [p] with [parent_path] guarantees,
    [rts] being the roots and [universe] the ids that can get a path. *)
Definition call_ok (rts : list Page) (universe : gset pystr)
    (depth : nat) (p : Page) (parent_path : Path) : Prop :=
  forall paths : gmap pystr Path,
    (size (universe ∖ dom paths) <= depth)%nat ->
    (p ∈ rts \/ exists a, child_of p a) ->
    paths !! page_id p = None ->
    (forall a, child_of p a -> paths !! a = Some parent_path) ->
    links_ok paths ->
    exists paths',
      process_page depth cm p parent_path paths = Some paths' /\
      paths' !! page_id p = Some (step_path parent_path p) /\
      paths ⊆ paths' /\ links_ok paths' /\
      added_below (fun k => k = page_id p) paths paths' /\
      children_done paths paths'.

End ForestVocabulary.

(** The pages a hierarchy holds: the roots, then the children lists. *)
Definition hierarchy_pages (h : Hierarchy) : list Page :=
  roots h ++ concat ((map_to_list (children_map h)).*2).

(** ** Vocabulary of the downloads *)

#[global] Instance writes_key_dec attachment k : Decision (writes_key attachment k).
Proof. unfold writes_key. apply _. Defined.

Section DownloadVocabulary.

Context `{Collaborators}.

(** The URL that [download_one] fetches for a download reference. *)
Definition full_url (download_url : pystr) : pystr :=
  if Str.startswith [slash] download_url
  then base_url ++ download_url else download_url.

(** The bytes the session returns for the attachment. *)
Definition fetched_bytes (attachment : Attachment) : list N :=
  default [] (session_get (full_url (att_download attachment))).

(** The write of a downloaded attachment. *)
Definition written_file (attachments_dir : Path) (attachment : Attachment)
  : FsEvent Path :=
  WriteBytes
    (joinpath attachments_dir (sanitize_filename (att_title attachment)))
    (fetched_bytes attachment).

(** The local reference of the last downloaded attachment of [results] that
    assigns to the key [k]. *)
Definition last_writer (attachments_dir : Path) (k : pystr)
    (results : list Attachment) : option pystr :=
  last (local_reference ∘ att_title <$>
        filter (fun a => downloaded attachments_dir a = true /\ writes_key a k)
               results).

(** What [export_page] may do to the file system for a page at
    [page_path]. *)
Definition in_page_dir (page_path : Path) (event : FsEvent Path) : Prop :=
  event = Mkdir page_path \/
  event = Mkdir (joinpath page_path (of_string "attachments")) \/
  (exists name content,
      event = WriteBytes
                (joinpath (joinpath page_path (of_string "attachments")) name)
                content) \/
  (exists text,
      event = WriteText (joinpath page_path (of_string "index.md")) text).

End DownloadVocabulary.

(** ** Vocabulary of the link substitution *)

(** A non-empty end of [a] is a beginning of [b]: written one after the
    other, the two strings can share characters. *)
Fixpoint overlaps (a b : pystr) : bool :=
  match a with
  | [] => false
  | _ :: a' => Str.startswith a b || overlaps a' b
  end.

(** The key and the value meet nowhere: neither occurs in the other, and no
    end of one is a beginning of the other. *)
Definition apart (key value : pystr) : bool :=
  negb (Str.occurs key value) && negb (Str.occurs value key)
  && negb (overlaps key value) && negb (overlaps value key).

(** ** Vocabulary of the newline clean-up *)

(** Three newlines in a row. *)
Definition blank_run : pystr := [newline; newline; newline].

(** No run of newlines in [s] reaches three, [run] newlines standing before
    [s]. *)
Fixpoint runs_below_three (run : nat) (s : pystr) : bool :=
  match s with
  | [] => true
  | c :: t =>
      if c =? newline then (run <? 2)%nat && runs_below_three (S run) t
      else runs_below_three 0 t
  end.

(** ** Vocabulary of the diagram embeds *)

Definition lt_sign : pychar := 60.

(** A diagram macro: the opening literal, the rest of the opening tag, the
    closing [>], the body, the closing literal. *)
Definition drawio_block (attrs body : pystr) : pystr :=
  drawio_open ++ attrs ++ [gt_sign] ++ body ++ drawio_close.

(** ** Vocabulary of the orchestration *)

(** The calls nested under [page] stay within [depth]. *)
Fixpoint nesting_fits (depth : nat) (cm : gmap pystr (list Page))
    (page : Page) : Prop :=
  match depth with
  | O => False
  | S d => forall c, c ∈ default [] (cm !! page_id page) -> nesting_fits d cm c
  end.

(** ** A sample environment

    A collaborator set to run the exporter on concrete inputs: paths are
    lists of segments, joining appends the segment (an empty or dot segment
    adds nothing, as in [pathlib]), and every transfer succeeds unless said
    otherwise. *)
Module Sample.

Definition Path := list pystr.

Definition joinpath (p : Path) (name : pystr) : Path :=
  match name with
  | [] | [46] => p
  | _ => p ++ [name]
  end.

Definition base_url : pystr := of_string "https://wiki.example".

Definition always (content : list N) (url : pystr) : option (list N) :=
  Some content.

Definition ok (p : Path) : bool := true.

(** Every fetch succeeds but the one of [url]. *)
Definition all_but (url : pystr) (u : pystr) : option (list N) :=
  if decide (u = url) then None else Some [].

Definition out : Path := [of_string "out"].

Definition diagram : Attachment :=
  mkAttachment (of_string "diagram v1.png")
               (of_string "/download/attachments/1/diagram%20v1.png").

Definition notes : Attachment :=
  mkAttachment (of_string "notes.txt")
               (of_string "/download/attachments/1/notes.txt").

(** A chain of three pages. *)
Definition root_page : Page :=
  mkPage (of_string "1") (of_string "Root") []
         (Some (of_string "<p>Hi</p>")) [of_string "a"; of_string "b"]
         (Some (of_string "2024-01-02T13:25:33.000Z")).
Definition child_page : Page :=
  mkPage (of_string "2") (of_string "Child") [of_string "1"]
         None [] None.
Definition grand_child_page : Page :=
  mkPage (of_string "3") (of_string "Grand Child")
         [of_string "1"; of_string "2"]
         None [] (Some (of_string "2023-12-31T23:59:59.000Z")).
Definition space : list Page := [root_page; child_page; grand_child_page].

(** A parser that knows the two timestamps of the chain. *)
Definition fromisoformat (s : pystr) : option datetime :=
  if decide (s = of_string "2024-01-02T13:25:33.000+00:00")
  then Some (mkDatetime 1704201933000000 (Some 0%Z))
  else if decide (s = of_string "2023-12-31T23:59:59.000+00:00")
  then Some (mkDatetime 1704067199000000 (Some 0%Z))
  else None.

(** Midnight of 2024-01-01, as [strptime] gives it: no time zone. *)
Definition since : datetime := mkDatetime 1704067200000000 None.

(** The collaborators of the sample runs: [listing] is what the remote
    returns for every page, [fetch] the HTTP session; [markdownify] leaves
    the text as it is. *)
Definition env (listing : option (list Attachment))
    (fetch : pystr -> option (list N)) : Collaborators :=
  Build_Collaborators Path joinpath base_url (fun _ => listing) fetch ok ok
                      (fun html => html).

(** The remote space holds the chain. *)
Definition source : PageSource := Build_PageSource (paged space) fromisoformat.

(** [relative_to] and [str] on lists of segments. *)
Definition relative_to (p other : Path) : option Path :=
  if decide (take (length other) p = other)
  then Some (drop (length other) p) else None.

Definition path_str (p : Path) : pystr :=
  match p with
  | [] => of_string "."
  | _ => Str.join (of_string "/") p
  end.

Definition index_env (listing : option (list Attachment))
    (fetch : pystr -> option (list N)) : IndexCollaborators (env listing fetch) :=
  Build_IndexCollaborators (env listing fetch) (of_string "DOCS")
                           relative_to path_str.

(** Two pages at the top whose titles sanitize to one name. *)
Definition slash_page : Page :=
  mkPage (of_string "7") (of_string "a/b") [] None [] None.
Definition blank_page : Page :=
  mkPage (of_string "8") (of_string "a b") [] None [] None.

(** Two attachments listed with one download reference. *)
Definition first_a : Attachment :=
  mkAttachment (of_string "a.png") (of_string "/x").
Definition second_b : Attachment :=
  mkAttachment (of_string "b.png") (of_string "/x").

(** Two attachments, the filename of the second inside that of the first. *)
Definition logo : Attachment :=
  mkAttachment (of_string "logo.png") (of_string "/files/1").
Definition go : Attachment :=
  mkAttachment (of_string "go.png") (of_string "/files/2").

End Sample.


(** * Properties *)

(** ** Python strings *)

Lemma replace_scan_char (c d : pychar) (s : pystr) :
  Str.replace_scan [c] [d] 0 s = map (fun x => if c =? x then d else x) s.
Proof.
  induction s as [|x t IH]; simpl; [reflexivity|].
  rewrite andb_true_r. destruct (c =? x); simpl; by rewrite IH.
Qed.

Lemma lstrip_suffix f (s : pystr) : Str.lstrip f s `suffix_of` s.
Proof.
  induction s as [|c t IH]; simpl; [done|].
  destruct (f c); [by apply suffix_cons_r | done].
Qed.

Lemma rstrip_prefix f (s : pystr) : Str.rstrip f s `prefix_of` s.
Proof.
  unfold Str.rstrip. destruct (lstrip_suffix f (reverse s)) as [k Hk].
  exists (reverse k). rewrite <- reverse_app, <- Hk. by rewrite reverse_involutive.
Qed.

Lemma lstrip_all f (s : pystr) :
  Forall (fun c => f c = true) s -> Str.lstrip f s = [].
Proof. induction 1 as [|c t Hc _ IH]; simpl; [done|]. by rewrite Hc. Qed.

Lemma lstrip_keeps f (s : pystr) c :
  c ∈ s -> f c = false -> c ∈ Str.lstrip f s.
Proof.
  induction s as [|x t IH]; simpl; [done|]. intros Hin Hc.
  destruct (f x) eqn:Hx; [|done].
  apply elem_of_cons in Hin as [->|Hin]; [congruence | by apply IH].
Qed.

Lemma rstrip_keeps f (s : pystr) c :
  c ∈ s -> f c = false -> c ∈ Str.rstrip f s.
Proof.
  intros Hin Hc. unfold Str.rstrip. apply elem_of_reverse.
  apply lstrip_keeps; [by apply elem_of_reverse | done].
Qed.

Lemma lstrip_head f (s : pystr) c t :
  Str.lstrip f s = c :: t -> f c = false.
Proof.
  induction s as [|x r IH]; simpl; [done|].
  destruct (f x) eqn:Hx; [done|]. by intros [= <- _].
Qed.

Lemma rstrip_id f (s : pystr) :
  (forall c, last s = Some c -> f c = false) -> Str.rstrip f s = s.
Proof.
  intros H. unfold Str.rstrip.
  destruct (reverse s) as [|c r] eqn:Hr.
  - simpl. apply (f_equal reverse) in Hr.
    rewrite reverse_involutive in Hr. by subst.
  - simpl. rewrite H.
    + rewrite <- Hr. apply reverse_involutive.
    + apply (f_equal reverse) in Hr. rewrite reverse_involutive in Hr.
      subst s. rewrite reverse_cons. by rewrite last_snoc.
Qed.

(** ** Name sanitizer *)

(** The loop over [invalid_chars] is one pass that maps each reserved
    character to an underscore. *)
Lemma replace_invalid_map (s : pystr) :
  replace_invalid s = map (fun c => if is_invalid c then underscore else c) s.
Proof.
  unfold replace_invalid, invalid_chars. cbn [fold_left Str.replace].
  rewrite !replace_scan_char, !map_map. apply map_ext. intros c.
  unfold is_invalid, invalid_chars. cbn [existsb].
  repeat match goal with
  | |- context [?k =? c] =>
      rewrite (N.eqb_sym k c);
      destruct (N.eqb_spec c k) as [->|?]; [reflexivity|]
  end.
  reflexivity.
Qed.

Lemma underscore_valid : is_invalid underscore = false.
Proof. reflexivity. Qed.

Lemma invalid_not_class c :
  is_invalid c = true -> is_space_or_underscore c = false.
Proof.
  unfold is_invalid, invalid_chars; simpl. rewrite !orb_true_iff.
  intros H. repeat destruct H as [H|H]; try discriminate;
    apply N.eqb_eq in H; subst; reflexivity.
Qed.

Lemma strip_char_class c :
  is_strip_char c = true -> is_space_or_underscore c = true.
Proof.
  unfold is_strip_char. rewrite orb_true_iff.
  intros [H|H]; apply N.eqb_eq in H; subst; reflexivity.
Qed.

Lemma collapse_runs_Forall (P : pychar -> Prop) b (s : pystr) :
  P underscore -> Forall P s -> Forall P (collapse_runs b s).
Proof.
  intros Hu Hs. revert b. induction Hs as [|c t Hc _ IH]; intros b; simpl.
  - constructor.
  - destruct (is_space_or_underscore c); [destruct b|]; auto.
Qed.

Lemma collapse_runs_keeps b (s : pystr) c :
  c ∈ s -> is_space_or_underscore c = false -> c ∈ collapse_runs b s.
Proof.
  intros Hin Hc. revert b. induction s as [|x t IH]; intros b; [done|].
  simpl. apply elem_of_cons in Hin as [<-|Hin].
  - rewrite Hc. left.
  - destruct (is_space_or_underscore x); [destruct b|];
      repeat (try (by apply IH); right).
Qed.

Lemma collapse_runs_class b (s : pystr) :
  Forall (fun c => is_space_or_underscore c = true) s ->
  Forall (fun c => c = underscore) (collapse_runs b s).
Proof.
  intros Hs. revert b. induction Hs as [|c t Hc _ IH]; intros b; simpl.
  - constructor.
  - rewrite Hc. destruct b; auto.
Qed.

Lemma truncate_prefix (s : pystr) : truncate s `prefix_of` s.
Proof.
  unfold truncate. destruct (100 <? length s)%nat; [|done].
  apply prefix_take.
Qed.

Lemma truncate_length (s : pystr) : (length (truncate s) <= 100)%nat.
Proof.
  unfold truncate. destruct (100 <? length s)%nat eqn:H.
  - rewrite length_take. lia.
  - apply Nat.ltb_ge in H. lia.
Qed.

Lemma truncate_nonempty (s : pystr) : s <> [] -> truncate s <> [].
Proof.
  unfold truncate. destruct (100 <? length s)%nat; [|done].
  by destruct s.
Qed.

Lemma sanitize_prefix_strip (s : pystr) :
  sanitize_filename s `prefix_of`
    Str.lstrip is_strip_char (collapse_runs false (replace_invalid s)).
Proof.
  unfold sanitize_filename, Str.strip.
  etrans; [apply truncate_prefix | apply rstrip_prefix].
Qed.

Lemma sanitize_solid (s : pystr) c :
  c ∈ s -> is_solid c = true -> sanitize_filename s <> [].
Proof.
  unfold is_solid. rewrite andb_true_iff, !negb_true_iff. intros Hin [Hv Hc].
  unfold sanitize_filename. apply truncate_nonempty.
  assert (Hs : is_strip_char c = false).
  { destruct (is_strip_char c) eqn:E; [|done].
    apply strip_char_class in E. congruence. }
  assert (H : c ∈ Str.strip is_strip_char
                    (collapse_runs false (replace_invalid s))).
  { unfold Str.strip. apply rstrip_keeps; [|done].
    apply lstrip_keeps; [|done]. apply collapse_runs_keeps; [|done].
    rewrite replace_invalid_map. apply list_elem_of_fmap.
    exists c. by rewrite Hv. }
  intros E. rewrite E in H. by apply not_elem_of_nil in H.
Qed.

Lemma sanitize_no_solid (s : pystr) :
  Forall (fun c => is_solid c = false) s -> sanitize_filename s = [].
Proof.
  intros Hs.
  assert (H : Str.lstrip is_strip_char
                (collapse_runs false (replace_invalid s)) = []).
  { apply lstrip_all.
    eapply Forall_impl; [apply collapse_runs_class|].
    - rewrite replace_invalid_map. apply Forall_fmap.
      eapply Forall_impl; [exact Hs|]. intros c Hc. simpl.
      unfold is_solid in Hc. destruct (is_invalid c); [reflexivity|].
      simpl in Hc. by apply negb_false_iff in Hc.
    - by intros c ->. }
  pose proof (sanitize_prefix_strip s) as Hp. rewrite H in Hp.
  by apply prefix_nil_inv in Hp.
Qed.

Lemma is_invalid_spec c : is_invalid c = true <-> c ∈ invalid_chars.
Proof.
  unfold is_invalid. rewrite existsb_exists. split.
  - intros (x & Hx & E). apply N.eqb_eq in E. subst. by apply list_elem_of_In.
  - intros H. exists c. split; [by apply list_elem_of_In | apply N.eqb_refl].
Qed.

Lemma is_invalid_false c : is_invalid c = false <-> c ∉ invalid_chars.
Proof.
  rewrite <- is_invalid_spec. destruct (is_invalid c); split; congruence.
Qed.

Lemma replace_invalid_valid (s : pystr) :
  Forall (fun c => is_invalid c = false) (replace_invalid s).
Proof.
  rewrite replace_invalid_map. apply Forall_fmap, Forall_forall.
  intros c _. simpl. destruct (is_invalid c) eqn:E; [reflexivity | exact E].
Qed.

Lemma Forall_prefix {A} (P : A -> Prop) (l k : list A) :
  l `prefix_of` k -> Forall P k -> Forall P l.
Proof. intros [r ->] H. by apply Forall_app in H as [H _]. Qed.

Lemma Forall_suffix {A} (P : A -> Prop) (l k : list A) :
  l `suffix_of` k -> Forall P k -> Forall P l.
Proof. intros [r ->] H. by apply Forall_app in H as [_ H]. Qed.

(** C8. For every input, the output of [sanitize_filename] has at most 100
    characters and contains no character of the reserved set. *)
Theorem sanitize_filename_bounded_and_safe (s : pystr) :
  (length (sanitize_filename s) <= 100)%nat /\
  forall c, c ∈ sanitize_filename s -> c ∉ invalid_chars.
Proof.
  split; [apply truncate_length|].
  intros c Hc. apply is_invalid_false. revert c Hc. apply Forall_forall.
  eapply Forall_prefix; [apply sanitize_prefix_strip|].
  eapply Forall_suffix; [apply lstrip_suffix|].
  apply collapse_runs_Forall; [reflexivity | apply replace_invalid_valid].
Qed.

(** C3, as stated, fails: a single space is a non-empty input with a
    character outside the reserved set, and its sanitized name is empty. *)
Lemma sanitize_filename_space_empty :
  ~ (forall s : pystr,
       s <> [] -> (exists c, c ∈ s /\ c ∉ invalid_chars) ->
       sanitize_filename s <> []).
Proof.
  intros H. apply (H [space]); [done | | reflexivity].
  exists space. split; [left|]. by apply is_invalid_false.
Qed.

(** C3, amended. [sanitize_filename] returns a non-empty string exactly when
    the input has a character that is neither reserved, nor whitespace, nor
    an underscore; the empty input and the inputs made of reserved characters
    only give the empty string. *)
Theorem sanitize_filename_nonempty_iff (s : pystr) :
  (sanitize_filename s <> [] <->
   exists c, c ∈ s /\ (c ∉ invalid_chars) /\ is_space c = false /\ c <> underscore)
  /\ ((forall c, c ∈ s -> c ∈ invalid_chars) -> sanitize_filename s = []).
Proof.
  assert (Hsolid : forall c, is_solid c = true <->
            (c ∉ invalid_chars) /\ is_space c = false /\ c <> underscore).
  { intros c. unfold is_solid, is_space_or_underscore.
    rewrite andb_true_iff, !negb_true_iff, orb_false_iff, N.eqb_neq.
    by rewrite is_invalid_false. }
  split; [split|].
  - intros Hne. destruct (existsb is_solid s) eqn:E.
    + apply existsb_exists in E as (c & Hin & Hc).
      exists c. split; [by apply list_elem_of_In | by apply Hsolid].
    + exfalso. apply Hne, sanitize_no_solid, Forall_forall. intros c Hin.
      destruct (is_solid c) eqn:Hc; [|done].
      assert (existsb is_solid s = true); [|congruence].
      apply existsb_exists. exists c. split; [by apply list_elem_of_In|done].
  - intros (c & Hin & Hc). eapply sanitize_solid; [exact Hin|].
    by apply Hsolid.
  - intros Hall. apply sanitize_no_solid, Forall_forall. intros c Hin.
    unfold is_solid. apply Hall, is_invalid_spec in Hin. by rewrite Hin.
Qed.

Lemma sanitize_filename_nonempty_iff_witness :
  sanitize_filename (of_string "?*") = [].
Proof.
  apply (sanitize_filename_nonempty_iff (of_string "?*")).
  intros c Hc. apply is_invalid_spec.
  apply list_elem_of_In in Hc. simpl in Hc.
  destruct Hc as [<-|[<-|[]]]; reflexivity.
Defined.

(** *** Sanitized names are tidy *)

Lemma tidy_weaken b (s : pystr) : tidy true s = true -> tidy b s = true.
Proof.
  destruct s as [|c t]; [done|]. simpl.
  destruct (c =? underscore); [|done].
  rewrite andb_false_r. discriminate.
Qed.

Lemma tidy_prefix b (l k : pystr) :
  l `prefix_of` k -> tidy b k = true -> tidy b l = true.
Proof.
  intros [r ->]. revert b. induction l as [|c t IH]; intros b; [done|].
  simpl. rewrite !andb_true_iff. intros [Hc H]. split; [done|].
  destruct (c =? underscore).
  - apply andb_true_iff in H as [-> H]. by apply IH.
  - by apply IH.
Qed.

Lemma tidy_lstrip b (s : pystr) :
  tidy b s = true -> tidy true (Str.lstrip is_strip_char s) = true.
Proof.
  revert b. induction s as [|c t IH]; intros b; [done|].
  cbn [Str.lstrip]. destruct (is_strip_char c) eqn:Hs.
  - simpl. rewrite !andb_true_iff. intros [_ H].
    destruct (c =? underscore).
    + apply andb_true_iff in H as [_ H]. by eapply IH.
    + by eapply IH.
  - unfold is_strip_char in Hs. apply orb_false_iff in Hs as [Hu _].
    simpl. by rewrite Hu.
Qed.

Lemma collapse_runs_tidy b (s : pystr) :
  Forall (fun c => is_invalid c = false) s ->
  tidy b (collapse_runs b s) = true.
Proof.
  intros Hs. revert b. induction Hs as [|c t Hc _ IH]; intros b; [done|].
  simpl. destruct (is_space_or_underscore c) eqn:E.
  - destruct b; [apply IH|]. simpl. apply IH.
  - unfold is_space_or_underscore in E. apply orb_false_iff in E as [Hsp Hu].
    simpl. rewrite Hc, Hsp, Hu. apply IH.
Qed.

Lemma sanitize_filename_tidy (s : pystr) :
  tidy true (sanitize_filename s) = true.
Proof.
  eapply tidy_prefix; [apply sanitize_prefix_strip|].
  eapply tidy_lstrip, collapse_runs_tidy, replace_invalid_valid.
Qed.

Lemma tidy_valid b (s : pystr) :
  tidy b s = true -> Forall (fun c => is_invalid c = false) s.
Proof.
  revert b. induction s as [|c t IH]; intros b; [constructor|].
  simpl. rewrite !andb_true_iff, negb_true_iff. intros [[Hc _] H].
  constructor; [done|]. destruct (c =? underscore).
  - apply andb_true_iff in H as [_ H]. by eapply IH.
  - by eapply IH.
Qed.

Lemma tidy_collapse b (s : pystr) :
  tidy b s = true -> collapse_runs b s = s.
Proof.
  revert b. induction s as [|c t IH]; intros b; [done|].
  simpl. rewrite !andb_true_iff, !negb_true_iff. intros [[_ Hsp] H].
  unfold is_space_or_underscore. rewrite Hsp. simpl.
  destruct (N.eqb_spec c underscore) as [->|Hne].
  - apply andb_true_iff in H as [Hb H]. apply negb_true_iff in Hb. subst b.
    f_equal. by apply IH.
  - f_equal. by apply IH.
Qed.

Lemma tidy_lstrip_id (s : pystr) :
  tidy true s = true -> Str.lstrip is_strip_char s = s.
Proof.
  destruct s as [|c t]; [done|]. simpl.
  rewrite !andb_true_iff, !negb_true_iff. intros [[_ Hsp] H].
  unfold is_strip_char.
  destruct (N.eqb_spec c underscore) as [->|Hu]; [done|].
  destruct (N.eqb_spec c space) as [->|Hs]; [done|]. done.
Qed.

Lemma tidy_last b (s : pystr) c :
  tidy b s = true -> last s = Some c -> is_space c = false.
Proof.
  intros H Hl. apply last_Some in Hl as [r ->].
  revert b H. induction r as [|x r IH]; intros b; simpl.
  - rewrite !andb_true_iff, !negb_true_iff. by intros [[_ ?] _].
  - rewrite !andb_true_iff. intros [_ H]. destruct (x =? underscore).
    + apply andb_true_iff in H as [_ H]. by eapply IH.
    + by eapply IH.
Qed.

(** Sanitizing a tidy name of at most 100 characters only strips a trailing
    underscore. *)
Lemma sanitize_tidy (t : pystr) :
  tidy true t = true -> (length t <= 100)%nat ->
  sanitize_filename t = Str.rstrip is_strip_char t.
Proof.
  intros Ht Hlen. unfold sanitize_filename, Str.strip.
  assert (Hr : replace_invalid t = t).
  { rewrite replace_invalid_map. rewrite <- (map_id t) at 2.
    apply map_ext_Forall. eapply Forall_impl; [by eapply tidy_valid|].
    intros c Hc. simpl. by rewrite Hc. }
  rewrite Hr, (tidy_collapse false t) by (by apply tidy_weaken).
  rewrite tidy_lstrip_id by done.
  unfold truncate.
  pose proof (prefix_length _ _ (rstrip_prefix is_strip_char t)) as Hp.
  destruct (Nat.ltb_spec 100 (length (Str.rstrip is_strip_char t))); [lia|done].
Qed.

(** C10, as stated, fails: truncation to 100 characters can leave a trailing
    underscore, which a second application strips. *)
Lemma sanitize_filename_not_idempotent :
  let s := repeat 97 99 ++ of_string "_b" in
  sanitize_filename (sanitize_filename s) <> sanitize_filename s.
Proof. vm_compute. discriminate. Qed.

(** A second application only strips what truncation left at the end. *)
Lemma sanitize_filename_twice (s : pystr) :
  sanitize_filename (sanitize_filename s)
  = Str.rstrip is_strip_char (sanitize_filename s).
Proof.
  apply sanitize_tidy; [apply sanitize_filename_tidy | apply truncate_length].
Qed.

Lemma no_trailing_strip_char (t : pystr) :
  tidy true t = true -> last t <> Some underscore ->
  forall c, last t = Some c -> is_strip_char c = false.
Proof.
  intros Ht Hlast c Hc. unfold is_strip_char.
  destruct (N.eqb_spec c underscore) as [->|_]; [done|].
  destruct (N.eqb_spec c space) as [->|_]; [|done].
  by apply (tidy_last _ _ _ Ht) in Hc.
Qed.

(** C10, amended. [sanitize_filename] is idempotent on every input whose
    sanitized name does not end in an underscore. *)
Theorem sanitize_filename_idempotent (s : pystr) :
  last (sanitize_filename s) <> Some underscore ->
  sanitize_filename (sanitize_filename s) = sanitize_filename s.
Proof.
  intros Hlast. rewrite sanitize_filename_twice. apply rstrip_id.
  apply no_trailing_strip_char; [apply sanitize_filename_tidy | done].
Qed.

Lemma collapse_runs_length b (s : pystr) :
  (length (collapse_runs b s) <= length s)%nat.
Proof.
  revert b. induction s as [|c t IH]; intros b; simpl; [done|].
  pose proof (IH true). pose proof (IH false).
  destruct (is_space_or_underscore c); [destruct b|]; simpl; lia.
Qed.

Lemma rstrip_last f (s : pystr) c :
  last (Str.rstrip f s) = Some c -> f c = false.
Proof.
  unfold Str.rstrip. rewrite last_reverse.
  destruct (Str.lstrip f (reverse s)) as [|x t] eqn:E; [done|].
  intros [= <-]. by eapply lstrip_head.
Qed.

(** In particular it is idempotent on every input of at most 100 characters:
    nothing is cut, so the name ends as [strip] left it. *)
Lemma sanitize_filename_idempotent_short (s : pystr) :
  (length s <= 100)%nat ->
  sanitize_filename (sanitize_filename s) = sanitize_filename s.
Proof.
  intros Hlen. rewrite sanitize_filename_twice. apply rstrip_id.
  intros c. unfold sanitize_filename, truncate.
  set (t := Str.strip is_strip_char (collapse_runs false (replace_invalid s))).
  assert (length t <= length s)%nat as Ht.
  { subst t. unfold Str.strip.
    etrans; [apply prefix_length, rstrip_prefix|].
    etrans; [apply suffix_length, lstrip_suffix|].
    etrans; [apply collapse_runs_length|].
    rewrite replace_invalid_map. by rewrite length_map. }
  destruct (Nat.ltb_spec 100 (length t)); [lia|].
  apply rstrip_last.
Qed.

Lemma sanitize_filename_idempotent_witness :
  sanitize_filename (sanitize_filename (of_string " Grand   Child? "))
  = sanitize_filename (of_string " Grand   Child? ").
Proof.
  apply (sanitize_filename_idempotent (of_string " Grand   Child? ")).
  vm_compute. discriminate.
Defined.

(** ** Link substitution *)

Lemma replace_scan_absent old new (s : pystr) :
  Str.occurs old s = false -> Str.replace_scan old new 0 s = s.
Proof.
  induction s as [|c t IH]; [done|].
  cbn [Str.occurs Str.replace_scan]. intros H.
  apply orb_false_iff in H as [-> H]. by rewrite IH.
Qed.

Lemma replace_absent old new (s : pystr) :
  Str.occurs old s = false -> Str.replace old new s = s.
Proof.
  destruct old as [|a old]; [by destruct s|].
  apply replace_scan_absent.
Qed.

Lemma substitute_links_absent (m : Dict.t) (t : pystr) :
  (forall k v, (k, v) ∈ m -> Str.occurs k t = false) ->
  substitute_links m t = t.
Proof.
  unfold substitute_links. induction m as [|[k v] m IH]; intros H; [done|].
  simpl. rewrite replace_absent by (eapply H; left).
  apply IH. intros k' v' Hin. eapply H. by right.
Qed.

(** C7, as stated, fails: with the mapping [{ab: a}] the value does not
    contain the key, yet the text [abb] is rewritten to [ab] and then
    to [a]. *)
Lemma substitute_links_rewrites_twice :
  ~ (forall (m : Dict.t) (t : pystr),
       (forall k v k' v',
           (k, v) ∈ m -> (k', v') ∈ m -> Str.occurs k v' = false) ->
       substitute_links m (substitute_links m t) = substitute_links m t).
Proof.
  intros H.
  specialize (H [(of_string "ab", of_string "a")] (of_string "abb")).
  assert (E : substitute_links [(of_string "ab", of_string "a")]
                (substitute_links [(of_string "ab", of_string "a")]
                   (of_string "abb"))
              <> substitute_links [(of_string "ab", of_string "a")]
                   (of_string "abb")) by (vm_compute; discriminate).
  apply E, H. intros k v k' v' Hk Hk'.
  apply list_elem_of_singleton in Hk, Hk'.
  injection Hk as -> ->. injection Hk' as -> ->. reflexivity.
Qed.

(** *** Keys and values that stay apart *)

Lemma startswith_nil (s : pystr) : Str.startswith [] s = true.
Proof. by destruct s. Qed.

Lemma startswith_occurs (p s : pystr) :
  Str.startswith p s = true -> Str.occurs p s = true.
Proof. destruct s; cbn [Str.occurs]; by intros ->. Qed.

Lemma occurs_tail (p : pystr) c s :
  Str.occurs p (c :: s) = false ->
  Str.startswith p (c :: s) = false /\ Str.occurs p s = false.
Proof. cbn [Str.occurs]. by intros H%orb_false_iff. Qed.

(** A prefix of [w ++ x] is a prefix of [w], or [w] is a prefix of it. *)
Lemma startswith_app_split (p w x : pystr) :
  Str.startswith p (w ++ x) = true ->
  Str.startswith p w = true \/ Str.startswith w p = true.
Proof.
  revert w. induction p as [|a p IH]; intros w; [by left|].
  destruct w as [|b w]; [by right|].
  cbn [app Str.startswith]. intros [Hab H]%andb_true_iff.
  rewrite (N.eqb_sym b a), Hab. by apply IH.
Qed.

Lemma overlaps_whole (p w : pystr) :
  p <> [] -> Str.startswith p w = true -> overlaps p w = true.
Proof. destruct p; [done|]. cbn [overlaps]. by intros _ ->. Qed.

(** What is put in for an occurrence brings no occurrence of [k] with it
    when [k] neither occurs in it nor begins at one of its ends. *)
Lemma occurs_app_apart (k w x : pystr) :
  Str.occurs k w = false -> overlaps w k = false ->
  Str.occurs k (w ++ x) = Str.occurs k x.
Proof.
  induction w as [|a w IH]; intros Hocc Hover; [done|].
  destruct (occurs_tail _ _ _ Hocc) as [Hstart Hocc'].
  cbn [overlaps] in Hover. apply orb_false_iff in Hover as [Hw Hover'].
  change ((a :: w) ++ x) with (a :: (w ++ x)).
  change (Str.occurs k (a :: (w ++ x)))
    with (Str.startswith k ((a :: w) ++ x) || Str.occurs k (w ++ x)).
  rewrite IH by done.
  destruct (Str.startswith k ((a :: w) ++ x)) eqn:E; [|done].
  apply startswith_app_split in E as [E|E]; congruence.
Qed.

(** A string that stays apart from [new] begins the rewritten text only if
    it begins the text. *)
Lemma replace_scan_prefix old new (s p : pystr) :
  overlaps p new = false -> Str.occurs new p = false ->
  Str.startswith p (Str.replace_scan old new 0 s) = true ->
  Str.startswith p s = true.
Proof.
  revert p. induction s as [|c t IH]; intros p Hover Hocc; [done|].
  cbn [Str.replace_scan].
  destruct (Str.startswith old (c :: t)) eqn:Hmatch.
  - intros H. destruct p as [|a p]; [done|].
    apply startswith_app_split in H as [H|H].
    + apply overlaps_whole in H; [congruence|done].
    + apply startswith_occurs in H. congruence.
  - destruct p as [|a p]; [done|].
    cbn [Str.startswith]. intros [-> H]%andb_true_iff. simpl.
    apply IH; [| |done].
    + cbn [overlaps] in Hover. by apply orb_false_iff in Hover as [_ ?].
    + by destruct (occurs_tail _ _ _ Hocc).
Qed.

(** One replacement leaves no occurrence of a key that stays apart from the
    value put in, if the key is the one replaced or was absent before. *)
Lemma replace_scan_clears old new (k : pystr) :
  apart k new = true ->
  forall s skip,
    k = old \/ Str.occurs k s = false ->
    Str.occurs k (Str.replace_scan old new skip s) = false.
Proof.
  unfold apart. intros H.
  apply andb_true_iff in H as [H Hnk]. apply andb_true_iff in H as [H Hkn].
  apply andb_true_iff in H as [Hk Hn].
  apply negb_true_iff in Hk, Hn, Hkn, Hnk.
  assert (Hne : k <> []).
  { intros ->. by rewrite startswith_occurs in Hk by apply startswith_nil. }
  induction s as [|c t IH]; intros skip Hs.
  - by destruct k.
  - assert (Ht : k = old \/ Str.occurs k t = false).
    { destruct Hs as [->|Hs]; [by left|right].
      by destruct (occurs_tail _ _ _ Hs). }
    cbn [Str.replace_scan]. destruct skip as [|skip]; [|by apply IH].
    destruct (Str.startswith old (c :: t)) eqn:Hmatch.
    + rewrite occurs_app_apart by done. by apply IH.
    + change (Str.occurs k (c :: Str.replace_scan old new 0 t))
        with (Str.startswith k (c :: Str.replace_scan old new 0 t)
              || Str.occurs k (Str.replace_scan old new 0 t)).
      rewrite IH by done. rewrite orb_false_r.
      destruct (Str.startswith k (c :: Str.replace_scan old new 0 t)) eqn:E;
        [|done].
      assert (E' : Str.startswith k (Str.replace_scan old new 0 (c :: t)) = true).
      { cbn [Str.replace_scan]. by rewrite Hmatch. }
      apply replace_scan_prefix in E'; [|done|done].
      destruct Hs as [->|Hs]; [congruence|].
      destruct (occurs_tail _ _ _ Hs). congruence.
Qed.

Lemma replace_clears old new (k s : pystr) :
  old <> [] -> apart k new = true ->
  k = old \/ Str.occurs k s = false ->
  Str.occurs k (Str.replace old new s) = false.
Proof.
  destruct old as [|a old]; [done|]. intros _ Hapart Hs.
  by apply replace_scan_clears.
Qed.

Lemma apart_key_solid (k v : pystr) : apart k v = true -> k <> [].
Proof.
  unfold apart. intros H ->.
  rewrite startswith_occurs in H by apply startswith_nil. done.
Qed.

(** A whole pass leaves no occurrence of a key that stays apart from every
    value, if the key is yet to be replaced or was absent before. *)
Lemma substitute_links_clears (m : Dict.t) (k : pystr) :
  (forall k' v', (k', v') ∈ m -> apart k v' = true /\ k' <> []) ->
  forall t,
    (exists v, (k, v) ∈ m) \/ Str.occurs k t = false ->
    Str.occurs k (substitute_links m t) = false.
Proof.
  unfold substitute_links.
  induction m as [|[k0 v0] m IH]; intros Hm t Ht.
  - destruct Ht as [[v Hin]|Ht]; [by apply elem_of_nil in Hin|done].
  - simpl. destruct (Hm k0 v0 ltac:(left)) as [Hapart Hk0].
    apply IH; [intros k' v' Hin; apply Hm; by right|].
    destruct Ht as [[v Hin]|Ht].
    + apply elem_of_cons in Hin as [[= -> ->]|Hin]; [|left; by exists v].
      right. apply replace_clears; [done|done|by left].
    + right. apply replace_clears; [done|done|by right].
Qed.

(** C7, amended. When every key of the mapping stays apart from every value
    (no value contains a key, no key contains a value, and no end of one is
    a beginning of the other), a second link-substitution pass leaves the
    result of the first as it is. *)
Theorem substitute_links_idempotent (m : Dict.t) (t : pystr) :
  (forall k v k' v',
      (k, v) ∈ m -> (k', v') ∈ m ->
      Str.occurs k v' = false /\ Str.occurs v' k = false /\
      overlaps k v' = false /\ overlaps v' k = false) ->
  substitute_links m (substitute_links m t) = substitute_links m t.
Proof.
  intros Hm.
  assert (Hapart : forall k v k' v',
             (k, v) ∈ m -> (k', v') ∈ m -> apart k v' = true).
  { intros k v k' v' Hk Hk'. unfold apart.
    destruct (Hm k v k' v' Hk Hk') as (-> & -> & -> & ->). done. }
  apply substitute_links_absent. intros k v Hin.
  apply substitute_links_clears; [|left; by exists v].
  intros k' v' Hin'. split; [by eapply Hapart|].
  eapply apart_key_solid. by eapply (Hapart k' v' k' v').
Qed.

Lemma substitute_links_idempotent_witness :
  let m := [(of_string "diagram v1.png",
             of_string "attachments/diagram_v1.png");
            (of_string "/download/attachments/1/diagram%20v1.png",
             of_string "attachments/diagram_v1.png")] in
  let t := of_string "![Hi](diagram v1.png) [x](/download/attachments/1/diagram%20v1.png)" in
  substitute_links m (substitute_links m t) = substitute_links m t.
Proof.
  intros m t. apply substitute_links_idempotent.
  intros k v k' v' Hk Hk'. apply list_elem_of_In in Hk, Hk'.
  simpl in Hk, Hk'.
  destruct Hk as [[= <- <-]|[[= <- <-]|[]]];
    destruct Hk' as [[= <- <-]|[[= <- <-]|[]]];
    vm_compute; done.
Defined.

(** Each of the three conditions that C7, amended, adds is needed: a
    one-entry mapping that breaks only that one is rewritten twice.  The
    entries are [{bab: a}] on [bbabb], [{ab: bc}] on [aab] and [{ab: ca}]
    on [abb]. *)
Lemma apart_conditions_needed :
  (exists k v t,
      Str.occurs k v = false /\ overlaps k v = false /\ overlaps v k = false /\
      substitute_links [(k, v)] (substitute_links [(k, v)] t)
      <> substitute_links [(k, v)] t) /\
  (exists k v t,
      Str.occurs k v = false /\ Str.occurs v k = false /\
      overlaps v k = false /\
      substitute_links [(k, v)] (substitute_links [(k, v)] t)
      <> substitute_links [(k, v)] t) /\
  (exists k v t,
      Str.occurs k v = false /\ Str.occurs v k = false /\
      overlaps k v = false /\
      substitute_links [(k, v)] (substitute_links [(k, v)] t)
      <> substitute_links [(k, v)] t).
Proof.
  split; [|split].
  - exists (of_string "bab"), (of_string "a"), (of_string "bbabb").
    split_and!; [reflexivity..|]. vm_compute. discriminate.
  - exists (of_string "ab"), (of_string "bc"), (of_string "aab").
    split_and!; [reflexivity..|]. vm_compute. discriminate.
  - exists (of_string "ab"), (of_string "ca"), (of_string "abb").
    split_and!; [reflexivity..|]. vm_compute. discriminate.
Qed.

(** ** Dictionaries *)

Lemma dict_get_set k k' v (d : Dict.t) :
  Dict.get k' (Dict.set k v d) = if decide (k' = k) then Some v else Dict.get k' d.
Proof.
  induction d as [|[k0 v0] d IH]; simpl.
  - repeat case_decide; congruence.
  - repeat (case_decide; simpl); try congruence.
Qed.

Lemma dict_keys_set k v (d : Dict.t) x :
  x ∈ Dict.keys (Dict.set k v d) <-> x = k \/ x ∈ Dict.keys d.
Proof.
  unfold Dict.keys. induction d as [|[k0 v0] d IH]; simpl.
  - rewrite list_elem_of_singleton, elem_of_nil. tauto.
  - case_decide; subst; simpl; rewrite !elem_of_cons; [tauto|].
    rewrite IH. tauto.
Qed.

Lemma dict_keys_set_NoDup k v (d : Dict.t) :
  NoDup (Dict.keys d) -> NoDup (Dict.keys (Dict.set k v d)).
Proof.
  induction d as [|[k0 v0] d IH]; simpl.
  - intros _. apply NoDup_singleton.
  - intros Hd. apply NoDup_cons in Hd as [Hk0 Hd].
    case_decide; subst; simpl.
    + by apply NoDup_cons.
    + apply NoDup_cons. split; [|by apply IH].
      intros Hin. apply dict_keys_set in Hin as [?|?]; [congruence|done].
Qed.

(** ** Attachment downloader *)

Section DownloaderProperties.

Context `{C : Collaborators}.

Lemma download_one_failed dir st a :
  downloaded dir a = false -> download_one dir st a = st.
Proof.
  unfold downloaded, download_one.
  destruct (session_get _); [|done]. by intros ->.
Qed.

Lemma download_one_done dir st a :
  downloaded dir a = true ->
  exists content,
    download_one dir st a =
      (st.1 ++ [WriteBytes (joinpath dir (sanitize_filename (att_title a)))
                           content],
       Dict.set (att_download a) (local_reference (att_title a))
         (Dict.set (att_title a) (local_reference (att_title a)) st.2)).
Proof.
  unfold downloaded, download_one.
  destruct (session_get _) as [content|]; [|done].
  intros ->. by exists content.
Qed.

Lemma download_one_get dir st a k :
  downloaded dir a = true ->
  Dict.get k (download_one dir st a).2 =
    if decide (writes_key a k) then Some (local_reference (att_title a))
    else Dict.get k st.2.
Proof.
  intros Hok. destruct (download_one_done dir st a Hok) as [c ->].
  simpl. rewrite !dict_get_set. unfold writes_key.
  repeat case_decide; intuition congruence.
Qed.

Lemma download_loop_keeps dir l st k v :
  Dict.get k st.2 = Some v ->
  (forall a, a ∈ l -> downloaded dir a = true -> writes_key a k ->
             local_reference (att_title a) = v) ->
  Dict.get k (fold_left (download_one dir) l st).2 = Some v.
Proof.
  revert st. induction l as [|a l IH]; intros st Hget Hl; [done|].
  simpl. apply IH.
  - destruct (downloaded dir a) eqn:Hok.
    + rewrite download_one_get by done. case_decide; [|done].
      f_equal. apply Hl; [left | done | done].
    + by rewrite download_one_failed.
  - intros a' Hin. apply Hl. by right.
Qed.

Lemma download_loop_NoDup dir l st :
  NoDup (Dict.keys st.2) ->
  NoDup (Dict.keys (fold_left (download_one dir) l st).2).
Proof.
  revert st. induction l as [|a l IH]; intros st Hst; [done|].
  simpl. apply IH. destruct (downloaded dir a) eqn:Hok.
  - destruct (download_one_done dir st a Hok) as [c ->]. simpl.
    by do 2 apply dict_keys_set_NoDup.
  - by rewrite download_one_failed.
Qed.

Lemma download_attachments_loop page_id page_path results :
  get_attachments page_id = Some results ->
  mkdir_ok (joinpath page_path (of_string "attachments")) = true ->
  download_attachments page_id page_path =
    match results with
    | [] => ([], [])
    | _ => fold_left
             (download_one (joinpath page_path (of_string "attachments")))
             results
             ([Mkdir (joinpath page_path (of_string "attachments"))], [])
    end.
Proof.
  intros Hres Hmk. unfold download_attachments, download_listed.
  rewrite Hres. destruct results; [done|]. by rewrite Hmk.
Qed.

(** C5, amended. When an attachment of the listing is downloaded, and no
    attachment downloaded after it stores another local path under the
    same filename or download reference, the returned [url_mapping] maps
    both its filename and its raw download reference to
    ['attachments/' + sanitize_filename(filename)]; a key has one entry, so
    these are two entries when the two keys differ. *)
Theorem download_attachments_maps_both_keys
    page_id page_path results before a after :
  let dir := joinpath page_path (of_string "attachments") in
  let m := (download_attachments page_id page_path).2 in
  get_attachments page_id = Some results ->
  mkdir_ok dir = true ->
  results = before ++ a :: after ->
  downloaded dir a = true ->
  (forall a' k, a' ∈ after -> downloaded dir a' = true ->
                writes_key a k -> writes_key a' k ->
                local_reference (att_title a') = local_reference (att_title a)) ->
  Dict.get (att_title a) m = Some (local_reference (att_title a)) /\
  Dict.get (att_download a) m = Some (local_reference (att_title a)) /\
  NoDup (Dict.keys m).
Proof.
  intros dir m Hres Hmk -> Hok Hafter. subst m.
  rewrite (download_attachments_loop _ _ _ Hres Hmk).
  assert (Hne : exists x l, before ++ a :: after = x :: l)
    by (destruct before; eauto).
  destruct Hne as (x & l & Hne). rewrite Hne, <- Hne. clear x l Hne.
  fold dir. split_and!; [rewrite fold_left_app; cbn [fold_left]..|].
  - apply download_loop_keeps.
    + rewrite download_one_get by done. rewrite decide_True; [done|by left].
    + intros a' Hin Hok' Hw. apply (Hafter a' (att_title a)); [done|done|by left|done].
  - apply download_loop_keeps.
    + rewrite download_one_get by done. rewrite decide_True; [done|by right].
    + intros a' Hin Hok' Hw. apply (Hafter a' (att_download a)); [done|done|by right|done].
  - apply download_loop_NoDup. simpl. constructor.
Qed.

Lemma download_loop_filter dir l st :
  fold_left (download_one dir)
            (filter (fun a => downloaded dir a = true) l) st
  = fold_left (download_one dir) l st.
Proof.
  revert st. induction l as [|a l IH]; intros st; [done|].
  rewrite filter_cons. destruct (downloaded dir a) eqn:Hok.
  - rewrite decide_True by done. simpl. apply IH.
  - rewrite decide_False by done. simpl.
    by rewrite download_one_failed, IH.
Qed.

Lemma download_loop_justified dir l seen st :
  entries_justified dir seen st ->
  entries_justified dir (seen ++ l) (fold_left (download_one dir) l st).
Proof.
  revert seen st. induction l as [|a l IH]; intros seen st Hst.
  - by rewrite app_nil_r.
  - simpl. replace (seen ++ a :: l) with ((seen ++ [a]) ++ l)
      by (by rewrite <- app_assoc).
    apply IH. intros k v. destruct (downloaded dir a) eqn:Hok.
    + rewrite download_one_get by done.
      destruct (download_one_done dir st a Hok) as [c Hc].
      rewrite Hc. simpl. case_decide as Hw.
      * intros [= <-]. exists a, c. split_and!; try done.
        -- apply elem_of_app. right. left.
        -- apply elem_of_app. right. left.
      * intros Hget. destruct (Hst k v Hget) as (a' & c' & ? & ? & ? & ? & ?).
        exists a', c'. split_and!; try done; apply elem_of_app; by left.
    + rewrite download_one_failed by done. intros Hget.
      destruct (Hst k v Hget) as (a' & c' & ? & ? & ? & ? & ?).
      exists a', c'. split_and!; try done. apply elem_of_app. by left.
Qed.

Lemma dict_get_elem k v (d : Dict.t) : (k, v) ∈ d -> is_Some (Dict.get k d).
Proof.
  induction d as [|[k0 v0] d IH]; intros Hin; [by apply elem_of_nil in Hin|].
  simpl. case_decide; [by eexists|].
  apply elem_of_cons in Hin as [[= -> ->]|Hin]; [done|by apply IH].
Qed.

(** C9, amended. An attachment whose download fails leaves [url_mapping]
    (and the file system) as they are; every entry of the returned mapping
    was stored by an attachment of the listing that was fetched and written,
    under its filename or its download reference; the mapping is the one
    that the listing without the failed attachments gives; a filename or
    download reference is a key only when a downloaded attachment of the
    listing has it; and a text in which no filename and no download
    reference of a downloaded attachment occurs is left as it is by the
    link substitution. *)
Theorem download_attachments_failure_isolated page_id page_path :
  let dir := joinpath page_path (of_string "attachments") in
  let result := download_attachments page_id page_path in
  (forall st a, downloaded dir a = false -> download_one dir st a = st) /\
  (forall k v, Dict.get k result.2 = Some v ->
     exists results a content,
       get_attachments page_id = Some results /\ a ∈ results /\
       downloaded dir a = true /\ writes_key a k /\
       v = local_reference (att_title a) /\
       WriteBytes (joinpath dir (sanitize_filename (att_title a))) content
         ∈ result.1) /\
  (forall results, get_attachments page_id = Some results ->
     result.2 =
     (download_listed dir
        (filter (fun a => downloaded dir a = true) results)).2) /\
  (forall results k, get_attachments page_id = Some results ->
     (forall a, a ∈ results -> downloaded dir a = true -> ~ writes_key a k) ->
     Dict.get k result.2 = None) /\
  (forall results text, get_attachments page_id = Some results ->
     (forall a, a ∈ results -> downloaded dir a = true ->
        Str.occurs (att_title a) text = false /\
        Str.occurs (att_download a) text = false) ->
     substitute_links result.2 text = text).
Proof.
  intros dir result.
  assert (Hentries : forall k v, Dict.get k result.2 = Some v ->
     exists results a content,
       get_attachments page_id = Some results /\ a ∈ results /\
       downloaded dir a = true /\ writes_key a k /\
       v = local_reference (att_title a) /\
       WriteBytes (joinpath dir (sanitize_filename (att_title a))) content
         ∈ result.1).
  { subst result. unfold download_attachments, download_listed. fold dir.
    destruct (get_attachments page_id) as [[|a0 results]|]; [done| |done].
    destruct (mkdir_ok dir); [|done].
    intros k v Hget.
    pose proof (download_loop_justified dir (a0 :: results) []
                  ([Mkdir dir], [])) as H.
    destruct (H ltac:(by intros ? ?) k v Hget)
      as (a & c & ? & ? & ? & ? & ?).
    by exists (a0 :: results), a, c. }
  split; [|split; [|split; [|split]]].
  - intros st a. apply download_one_failed.
  - exact Hentries.
  - intros results Hres. subst result.
    unfold download_attachments, download_listed. fold dir. rewrite Hres.
    destruct results as [|a0 results]; [done|].
    destruct (mkdir_ok dir).
    + rewrite <- download_loop_filter.
      by destruct (filter _ (a0 :: results)).
    + by destruct (filter _ (a0 :: results)).
  - intros results k Hres Hnone.
    destruct (Dict.get k result.2) as [v|] eqn:Hget; [|done].
    destruct (Hentries k v Hget) as (results' & a & c & Hres' & Ha & Hok & Hw & _).
    rewrite Hres in Hres'. injection Hres' as <-.
    by destruct (Hnone a Ha Hok).
  - intros results text Hres Hnone.
    apply substitute_links_absent. intros k v Hin.
    destruct (dict_get_elem k v _ Hin) as [v' Hget].
    destruct (Hentries k v' Hget) as (results' & a & c & Hres' & Ha & Hok & Hw & _).
    rewrite Hres in Hres'. injection Hres' as <-.
    destruct (Hnone a Ha Hok) as [Ht Hd].
    by destruct Hw as [<-|<-].
Qed.

End DownloaderProperties.

(** C5, as stated, fails: when two downloaded attachments are listed with the
    same download reference, the entry under that reference holds the local
    path of the second, not of the first. *)
Lemma download_attachments_shared_reference :
  ~ (forall (C : Collaborators) page_id (page_path : Path) results a,
       let dir := joinpath page_path (of_string "attachments") in
       let m := (download_attachments page_id page_path).2 in
       get_attachments page_id = Some results -> a ∈ results ->
       mkdir_ok dir = true -> downloaded dir a = true ->
       Dict.get (att_title a) m = Some (local_reference (att_title a)) /\
       Dict.get (att_download a) m = Some (local_reference (att_title a))).
Proof.
  intros H.
  specialize (H (Sample.env (Some [Sample.first_a; Sample.second_b])
                            (Sample.always []))
                (of_string "1") Sample.out
                [Sample.first_a; Sample.second_b] Sample.first_a).
  destruct H as [_ H]; [reflexivity | left | reflexivity | reflexivity |].
  vm_compute in H. discriminate.
Qed.

Lemma download_attachments_maps_both_keys_witness :
  let C := Sample.env (Some [Sample.diagram; Sample.notes]) (Sample.always []) in
  let m := (download_attachments (of_string "1") Sample.out).2 in
  Dict.get (of_string "diagram v1.png") m
    = Some (of_string "attachments/diagram_v1.png") /\
  Dict.get (of_string "/download/attachments/1/diagram%20v1.png") m
    = Some (of_string "attachments/diagram_v1.png") /\
  NoDup (Dict.keys m).
Proof.
  intros C.
  apply (@download_attachments_maps_both_keys C
           (of_string "1") Sample.out [Sample.diagram; Sample.notes]
           [] Sample.diagram [Sample.notes]).
  - reflexivity.
  - reflexivity.
  - reflexivity.
  - reflexivity.
  - intros a' k Hin _ Hk Hk'. apply list_elem_of_singleton in Hin. subst a'.
    destruct Hk as [<-|<-]; destruct Hk' as [Hk'|Hk'];
      vm_compute in Hk'; discriminate.
Defined.

(** C9, as stated, fails: with [logo.png] failing and [go.png] downloaded,
    the mapping holds no key of the failed attachment, yet the reference
    [![](logo.png)] is rewritten to [![](loattachments/go.png)], the key
    [go.png] occurring in it: the filename of the failed attachment is no
    longer in the text. *)
Lemma download_attachments_failed_reference_rewritten :
  ~ (forall (C : Collaborators) page_id (page_path : Path) results a
            (before after : pystr),
       let dir := joinpath page_path (of_string "attachments") in
       let m := (download_attachments page_id page_path).2 in
       get_attachments page_id = Some results -> a ∈ results ->
       downloaded dir a = false ->
       (Dict.get (att_title a) m = None /\
        Dict.get (att_download a) m = None) /\
       Str.occurs (att_title a)
         (substitute_links m (before ++ att_title a ++ after)) = true).
Proof.
  intros H.
  specialize (H (Sample.env (Some [Sample.logo; Sample.go])
                   (Sample.all_but (Sample.base_url ++ att_download Sample.logo)))
                (of_string "1") Sample.out
                [Sample.logo; Sample.go] Sample.logo
                (of_string "![](") (of_string ")")).
  destruct H as [_ H]; [reflexivity | left | reflexivity |].
  vm_compute in H. discriminate.
Qed.

Lemma download_attachments_failure_isolated_witness :
  let C := Sample.env (Some [Sample.diagram; Sample.notes])
             (Sample.all_but (Sample.base_url ++ att_download Sample.diagram)) in
  let m := (download_attachments (of_string "1") Sample.out).2 in
  m = (download_listed (joinpath Sample.out (of_string "attachments"))
                       [Sample.notes]).2 /\
  Dict.get (att_title Sample.diagram) m = None /\
  substitute_links m (of_string "![](diagram v1.png)")
  = of_string "![](diagram v1.png)".
Proof.
  intros C m.
  destruct (@download_attachments_failure_isolated C (of_string "1") Sample.out)
    as (_ & _ & Hsame & Hkey & Htext).
  split; [|split].
  - exact (Hsame [Sample.diagram; Sample.notes] eq_refl).
  - apply (Hkey [Sample.diagram; Sample.notes] _ eq_refl).
    intros a Ha Hok. apply list_elem_of_In in Ha. simpl in Ha.
    destruct Ha as [<-|[<-|[]]]; [by vm_compute in Hok|].
    intros [Hw|Hw]; by vm_compute in Hw.
  - apply (Htext [Sample.diagram; Sample.notes] _ eq_refl).
    intros a Ha Hok. apply list_elem_of_In in Ha. simpl in Ha.
    destruct Ha as [<-|[<-|[]]]; [by vm_compute in Hok|].
    split; vm_compute; reflexivity.
Defined.

(** ** Page export *)

Section PageExportProperties.

Context `{C : Collaborators}.

Lemma front_matter_present (label_names : list pystr) :
  front_matter label_names = [] <-> label_names = [].
Proof. by destruct label_names. Qed.

Lemma page_markdown_layout page url_mapping :
  page_markdown page url_mapping =
    front_matter (page_labels page) ++ title_heading (page_title page)
    ++ convert_to_markdown
         (handle_drawio_embeds (default [] (page_body page))) url_mapping.
Proof.
  unfold page_markdown, with_front_matter, with_heading, front_matter,
    title_heading.
  destruct (page_labels page); [|rewrite <- !app_assoc]; by rewrite <- ?app_assoc.
Qed.

(** C6. The text written to [index.md] for an exported page is the
    front-matter block [---\nlabels: <names joined by ", ">\n---], present
    exactly when the page has a label, then the heading [# <title>], then
    the converted Markdown body. *)
Theorem export_page_writes_index_md page_paths page page_path :
  page_paths !! page_id page = Some page_path ->
  mkdir_ok page_path = true ->
  write_ok (joinpath page_path (of_string "index.md")) = true ->
  exists events url_mapping,
    download_attachments (page_id page) page_path = (events, url_mapping) /\
    export_page page_paths page =
      Some (Mkdir page_path :: events ++
            [WriteText (joinpath page_path (of_string "index.md"))
               (front_matter (page_labels page)
                ++ title_heading (page_title page)
                ++ convert_to_markdown
                     (handle_drawio_embeds (default [] (page_body page)))
                     url_mapping)]) /\
    (front_matter (page_labels page) = [] <-> page_labels page = []).
Proof.
  intros Hpath Hmk Hwr. unfold export_page. rewrite Hpath, Hmk.
  destruct (download_attachments _ _) as [events url_mapping].
  exists events, url_mapping. rewrite Hwr, page_markdown_layout.
  split_and!; [done | done | apply front_matter_present].
Qed.

End PageExportProperties.

(** ** Page fetcher *)

Section FetcherProperties.

Context `{S : PageSource}.

Lemma datetime_ge_same_zone (d since : datetime) :
  datetime_ge d (replace_tzinfo since (tzinfo d))
  = Some (wall since <=? wall d)%Z.
Proof.
  unfold datetime_ge, replace_tzinfo; simpl.
  destruct (tzinfo d) as [o|]; [|done]. f_equal.
  destruct (Z.leb_spec (wall since) (wall d));
    destruct (Z.leb_spec (wall since - o) (wall d - o)); (done || lia).
Qed.

Lemma filter_step_includes since filtered page :
  fromisoformat [] = None ->
  filter_step since (Some filtered) page =
    Some (filtered ++ if since_includes since page then [page] else []).
Proof.
  intros Hempty. unfold filter_step, since_includes.
  destruct (page_when page) as [[|c t]|]; cbn [default id];
    [change (iso_text []) with (@nil N); by rewrite Hempty | | done].
  change (Str.replace [letter_Z] (of_string "+00:00") (c :: t))
    with (iso_text (c :: t)).
  destruct (fromisoformat (iso_text (c :: t))) as [d|]; [|done].
  rewrite datetime_ge_same_zone.
  destruct (wall since <=? wall d)%Z; [done | by rewrite app_nil_r].
Qed.

Lemma filter_loop since pages filtered :
  fromisoformat [] = None ->
  fold_left (filter_step since) pages (Some filtered) =
    Some (filtered ++ filter (fun p => since_includes since p = true) pages).
Proof.
  intros Hempty. revert filtered.
  induction pages as [|p pages IH]; intros filtered; cbn [fold_left].
  - by rewrite app_nil_r.
  - rewrite filter_step_includes, IH by done. rewrite filter_cons.
    destruct (since_includes since p).
    + rewrite decide_True by done. by rewrite <- app_assoc.
    + rewrite decide_False by done. by rewrite app_nil_r.
Qed.

Lemma since_includes_cases since page :
  since_includes since page = true <->
  timestamp_missing page \/ timestamp_unparsable page \/
  modified_on_or_after since page.
Proof.
  unfold since_includes, timestamp_missing, timestamp_unparsable,
    modified_on_or_after.
  destruct (page_when page) as [s|]; [|by split; [left|]].
  destruct (fromisoformat (iso_text s)) as [d|] eqn:Hd.
  - rewrite Z.leb_le. split.
    + intros Hle. right; right. by exists s, d.
    + intros [?|[(s' & [= <-] & ?)|(s' & d' & [= <-] & ? & ?)]];
        [done | congruence | congruence].
  - split; [|done]. intros _. right; left. by exists s.
Qed.

(** C4. With a since date, the pages [fetch_all_pages] returns are the
    fetched pages, in order, whose modification timestamp is missing, is
    unparsable, or parses to a moment on or after [since] (read in the
    zone of the timestamp): the others are left out. *)
Theorem fetch_all_pages_since_filter since fuel all_pages :
  fromisoformat [] = None ->
  fetch_loop fuel 0 [] = Some all_pages ->
  exists returned,
    fetch_all_pages (Some since) fuel = Some returned /\
    returned = filter (fun p => since_includes since p = true) all_pages /\
    forall page,
      page ∈ returned <->
      page ∈ all_pages /\
      (timestamp_missing page \/ timestamp_unparsable page \/
       modified_on_or_after since page).
Proof.
  intros Hempty Hloop. eexists. split_and!.
  - unfold fetch_all_pages. rewrite Hloop. by apply filter_loop.
  - done.
  - intros page. simpl. rewrite list_elem_of_filter, since_includes_cases.
    tauto.
Qed.

End FetcherProperties.

(** The pagination loop returns the whole of a finite space. *)
Lemma fetch_loop_paged (space : list Page) parse fuel start all_pages :
  (length space - start < fuel)%nat ->
  @fetch_loop (Build_PageSource (paged space) parse) fuel start all_pages
  = Some (all_pages ++ drop start space).
Proof.
  revert start all_pages.
  induction fuel as [|fuel IH]; intros start all_pages Hfuel; [lia|].
  cbn [fetch_loop get_all_pages_from_space]. unfold paged.
  pose proof (length_drop space start) as Hlen.
  destruct (take limit (drop start space)) as [|p pages] eqn:Htake.
  - destruct (drop start space); [by rewrite app_nil_r | done].
  - cbv beta iota zeta. rewrite <- Htake. clear p pages Htake.
    destruct (Nat.ltb_spec (length (take limit (drop start space))) limit)
      as [Hlt|Hge].
    + rewrite length_take in Hlt. by rewrite take_ge by lia.
    + rewrite length_take in Hge. rewrite IH by (unfold limit in *; lia).
      rewrite <- app_assoc. do 2 f_equal.
      rewrite <- (take_drop limit (drop start space)) at 2.
      by rewrite drop_drop.
Qed.

(** ** Hierarchy builder *)

Lemma place_page_roots ids h page :
  roots (place_page ids h page)
  = roots h ++ (if decide (is_root ids page) then [page] else []).
Proof.
  unfold place_page. case_decide as Hr; unfold is_root in Hr;
    destruct (parent_of page) as [a|]; try done;
    destruct (decide (a ∈ ids)); simpl; rewrite ?app_nil_r; done.
Qed.

Lemma place_page_children ids h page a :
  children_map (place_page ids h page) !! a
  = if decide (is_child_of ids a page)
    then Some (default [] (children_map h !! a) ++ [page])
    else children_map h !! a.
Proof.
  unfold place_page. case_decide as Hc; unfold is_child_of in Hc.
  - destruct Hc as [-> Ha]. rewrite decide_True by done. simpl.
    by rewrite lookup_insert_eq.
  - destruct (parent_of page) as [b|]; [|done].
    destruct (decide (b ∈ ids)); [|done]. simpl.
    rewrite lookup_insert_ne; [done|]. intros ->. by apply Hc.
Qed.

Lemma build_loop_roots ids pages h :
  roots (fold_left (place_page ids) pages h)
  = roots h ++ filter (is_root ids) pages.
Proof.
  revert h. induction pages as [|p pages IH]; intros h; simpl.
  - by rewrite app_nil_r.
  - rewrite IH, place_page_roots, filter_cons.
    case_decide; by rewrite <- app_assoc.
Qed.

Lemma build_loop_children ids pages h a :
  children_map (fold_left (place_page ids) pages h) !! a
  = match filter (is_child_of ids a) pages with
    | [] => children_map h !! a
    | l => Some (default [] (children_map h !! a) ++ l)
    end.
Proof.
  revert h. induction pages as [|p pages IH]; intros h; simpl; [done|].
  rewrite IH, place_page_children, filter_cons.
  case_decide; [|done].
  destruct (filter (is_child_of ids a) pages); simpl; [done|].
  by rewrite <- app_assoc.
Qed.

Lemma build_hierarchy_roots pages :
  roots (build_hierarchy pages)
  = filter (is_root (export_page_ids pages)) pages.
Proof. unfold build_hierarchy. by rewrite build_loop_roots. Qed.

Lemma build_hierarchy_children pages a l :
  children_map (build_hierarchy pages) !! a = Some l <->
  l <> [] /\ l = filter (is_child_of (export_page_ids pages) a) pages.
Proof.
  unfold build_hierarchy. rewrite build_loop_children.
  cbn [children_map]. rewrite lookup_empty. cbn [default from_option].
  destruct (filter _ pages) as [|x k].
  - split; [done | by intros [? ->]].
  - split; [by intros [= <-] | by intros [_ ->]].
Qed.

Lemma occurs_once_NoDup (page : Page) l :
  NoDup l -> page ∈ l -> occurs_once page l.
Proof.
  intros Hnd Hin. apply list_elem_of_split in Hin as (l1 & l2 & ->).
  exists l1, l2. apply NoDup_app in Hnd as (_ & H1 & H2).
  apply NoDup_cons in H2 as [H2 _].
  split_and!; [done | | done]. intros Hin. apply (H1 _ Hin). left.
Qed.

(** C1. In a duplicate-free export set, [build_hierarchy] places every page
    once: in [roots] when it has no ancestor or when its last ancestor is not
    an exported id, and otherwise in the children list of its last ancestor,
    and in no other list; a root is in no children list. *)
Theorem build_hierarchy_places_each_page_once pages page :
  NoDup pages -> page ∈ pages ->
  let h := build_hierarchy pages in
  let ids := export_page_ids pages in
  (page_ancestors page = [] -> occurs_once page (roots h)) /\
  (forall a, last (page_ancestors page) = Some a -> a ∉ ids ->
             occurs_once page (roots h)) /\
  (forall a, last (page_ancestors page) = Some a -> a ∈ ids ->
     (page ∉ roots h) /\
     (exists l, children_map h !! a = Some l /\ occurs_once page l) /\
     (forall b k, b <> a -> children_map h !! b = Some k -> page ∉ k)) /\
  (page ∈ roots h ->
   forall b k, children_map h !! b = Some k -> page ∉ k).
Proof.
  intros Hnd Hin h ids. subst h.
  assert (Hroot : is_root ids page -> occurs_once page
                    (roots (build_hierarchy pages))).
  { intros Hr. rewrite build_hierarchy_roots.
    apply occurs_once_NoDup; [by apply NoDup_filter|].
    by apply list_elem_of_filter. }
  assert (Hchild : forall b k, children_map (build_hierarchy pages) !! b = Some k ->
                     page ∈ k -> is_child_of ids b page).
  { intros b k Hk Hp. apply build_hierarchy_children in Hk as [_ ->].
    by apply list_elem_of_filter in Hp as [? _]. }
  split_and!.
  - intros Hanc. apply Hroot. unfold is_root, parent_of. by rewrite Hanc.
  - intros a Ha Hout. apply Hroot. unfold is_root, parent_of. by rewrite Ha.
  - intros a Ha Ha_in. split_and!.
    + rewrite build_hierarchy_roots, list_elem_of_filter.
      unfold is_root, parent_of. rewrite Ha. tauto.
    + exists (filter (is_child_of ids a) pages).
      assert (Hp : page ∈ filter (is_child_of ids a) pages)
        by (by apply list_elem_of_filter).
      split; [|apply occurs_once_NoDup; [by apply NoDup_filter|done]].
      apply build_hierarchy_children. split; [|done].
      intros E. rewrite E in Hp. by apply not_elem_of_nil in Hp.
    + intros b k Hne Hk Hp. destruct (Hchild b k Hk Hp) as [Hb _].
      unfold parent_of in Hb. congruence.
  - rewrite build_hierarchy_roots, list_elem_of_filter.
    intros [Hr _] b k Hk Hp. destruct (Hchild b k Hk Hp) as [Hb Hb_in].
    unfold is_root in Hr. rewrite Hb in Hr. done.
Qed.

(** ** Path assigner *)

Local Close Scope N_scope.

Section ForestTraversal.

Context `{C : Collaborators}.
Variable rts : list Page.
Variable cm : gmap pystr (list Page).
Variable output_dir : Path.
Variable universe : gset pystr.

Local Abbreviation child_of := (child_of cm).
Local Abbreviation links_ok := (links_ok cm).
Local Abbreviation added_below := (added_below cm).
Local Abbreviation children_done := (children_done cm).
Local Abbreviation call_ok := (call_ok cm rts universe).

(** The shape of the children map of a forest over unique ids. *)
Hypothesis one_parent : forall c a c' a',
  child_of c a -> child_of c' a' -> page_id c = page_id c' ->
  c = c' /\ a = a'.
Hypothesis root_not_child : forall r c a,
  r ∈ rts -> child_of c a -> page_id r <> page_id c.
Hypothesis roots_distinct : NoDup (page_id <$> rts).
Hypothesis children_distinct : forall a l, cm !! a = Some l -> NoDup l.
Hypothesis child_known : forall c a, child_of c a -> page_id c ∈ universe.
Hypothesis root_known : forall r, r ∈ rts -> page_id r ∈ universe.

Lemma unvisited_shrinks (paths : gmap pystr Path) k x depth :
  k ∈ universe -> paths !! k = None ->
  size (universe ∖ dom paths) <= S depth ->
  size (universe ∖ dom (<[k:=x]> paths)) <= depth.
Proof.
  intros Hk Hnone Hsize.
  assert (universe ∖ dom (<[k:=x]> paths) ⊂ universe ∖ dom paths) as Hsub.
  { rewrite dom_insert_L. apply not_elem_of_dom in Hnone. split.
    - intros y. rewrite !elem_of_difference, elem_of_union. tauto.
    - intros Hall. specialize (Hall k).
      rewrite !elem_of_difference, elem_of_union, elem_of_singleton in Hall.
      tauto. }
  apply subset_size in Hsub. lia.
Qed.

Lemma unvisited_positive (paths : gmap pystr Path) k :
  k ∈ universe -> paths !! k = None ->
  size (universe ∖ dom paths) <= 0 -> False.
Proof.
  intros Hk Hnone Hsize. apply not_elem_of_dom in Hnone.
  assert (E : size (universe ∖ dom paths) = 0) by lia.
  apply size_empty_iff in E. apply (not_elem_of_empty (C:=gset pystr) k).
  rewrite <- E. by apply elem_of_difference.
Qed.

Lemma unvisited_mono (paths paths' : gmap pystr Path) depth :
  paths ⊆ paths' ->
  size (universe ∖ dom paths) <= depth ->
  size (universe ∖ dom paths') <= depth.
Proof.
  intros Hsub Hsize. apply subseteq_dom in Hsub.
  etrans; [apply subseteq_size|exact Hsize].
  intros y. rewrite !elem_of_difference. intros [? Hy]. split; [done|].
  intros Hy'. by apply Hy, Hsub.
Qed.

Lemma known_in_universe p :
  (p ∈ rts \/ exists a, child_of p a) -> page_id p ∈ universe.
Proof. intros [?|[a ?]]; [by apply root_known | by eapply child_known]. Qed.

(** The loop that calls [process_page] on each page of [l] with one
    [parent_path]: the loop over the children of a page, and the loop over
    the roots. *)
Lemma pages_loop depth parent_path l :
  (forall c, call_ok depth c parent_path) ->
  NoDup (page_id <$> l) ->
  forall paths : gmap pystr Path,
    size (universe ∖ dom paths) <= depth ->
    links_ok paths ->
    (forall c, c ∈ l -> c ∈ rts \/ exists a, child_of c a) ->
    (forall c, c ∈ l -> paths !! page_id c = None) ->
    (forall c a, c ∈ l -> child_of c a -> paths !! a = Some parent_path) ->
    exists paths',
      fold_left
        (fun acc child =>
           match acc with
           | Some ps => process_page depth cm child parent_path ps
           | None => None
           end) l (Some paths) = Some paths' /\
      paths ⊆ paths' /\ links_ok paths' /\
      added_below (fun k => exists c, c ∈ l /\ page_id c = k) paths paths' /\
      children_done paths paths' /\
      (forall c, c ∈ l -> paths' !! page_id c = Some (step_path parent_path c)).
Proof.
  intros Hcall. induction l as [|c l IH];
    intros Hnd paths Hsize Hlinks Hknown Hfresh Hparent.
  - exists paths. split_and!; try done.
    + intros k Hk [x Hx]. congruence.
    + intros c a _ Ha [x Hx]. congruence.
    + intros c Hc. by apply elem_of_nil in Hc.
  - rewrite fmap_cons in Hnd. apply NoDup_cons in Hnd as [Hc_new Hnd].
    destruct (Hcall c paths) as (paths2 & Hrun & Hc & Hsub & Hlinks2 & Hadd & Hdone);
      [done | apply Hknown; left | apply Hfresh; left
      | intros a; apply Hparent; left | done |].
    destruct (IH Hnd paths2) as (paths' & Hloop & Hsub' & Hlinks' & Hadd' & Hdone' & Hall).
    + by eapply unvisited_mono.
    + done.
    + intros c' Hc'. apply Hknown. by right.
    + intros c' Hc'. destruct (paths2 !! page_id c') as [x|] eqn:Hx; [|done].
      exfalso. destruct (Hadd (page_id c')) as [Heq|(c2 & b & Hcb & Hid & Hb & _)].
      * apply Hfresh. by right.
      * by exists x.
      * apply Hc_new. rewrite <- Heq. apply list_elem_of_fmap. by exists c'.
      * destruct (Hknown c') as [Hroot|[a' Ha']]; [by right | |].
        -- by apply (root_not_child c' c2 b).
        -- destruct (one_parent c2 b c' a' Hcb Ha' Hid) as [_ ->].
           rewrite (Hparent c' a') in Hb; [done | by right | done].
    + intros c' a Hc' Ha. eapply lookup_weaken; [|exact Hsub].
      apply (Hparent c'); [by right | done].
    + exists paths'. split_and!.
      * cbn [fold_left]. by rewrite Hrun.
      * by etrans.
      * done.
      * intros k Hk Hk'. destruct (paths2 !! k) as [x|] eqn:Hx.
        -- destruct (Hadd k Hk) as [->|(c2 & b & ? & ? & ? & Hb)]; [by exists x| |].
           ++ left. exists c. split; [left|done].
           ++ right. exists c2, b. split_and!; try done.
              destruct Hb as [y Hy]. exists y. by eapply lookup_weaken.
        -- destruct (Hadd' k Hx Hk') as [(c' & ? & ?)|(c2 & b & ? & ? & Hb & ?)].
           ++ left. exists c'. split; [by right|done].
           ++ right. exists c2, b. split_and!; try done.
              by eapply lookup_weaken_None.
      * intros c2 b Hcb Hb Hb'. destruct (paths2 !! b) as [y|] eqn:Hy.
        -- destruct (Hdone c2 b Hcb Hb) as [x Hx]; [by exists y|].
           exists x. by eapply lookup_weaken.
        -- by apply (Hdone' c2 b).
      * intros c' Hc'. apply elem_of_cons in Hc' as [->|Hc'].
        -- by eapply lookup_weaken.
        -- by apply Hall.
Qed.

Lemma children_ids_distinct a l :
  cm !! a = Some l -> NoDup (page_id <$> l).
Proof.
  intros Hl. apply NoDup_fmap_2_strong; [|by eapply children_distinct].
  intros c c' Hc Hc' Hid.
  apply (one_parent c a c' a); [by exists l | by exists l | done].
Qed.

Lemma process_page_ok depth : forall p parent_path, call_ok depth p parent_path.
Proof.
  induction depth as [|depth IH];
    intros p parent_path paths Hsize Hknown Hfresh Hparent Hlinks.
  { exfalso. eapply unvisited_positive; [|exact Hfresh|exact Hsize].
    by apply known_in_universe. }
  set (page_path := step_path parent_path p).
  set (paths1 := <[page_id p := page_path]> paths).
  set (l := default [] (cm !! page_id p)).
  assert (Hl : forall c, c ∈ l -> child_of c (page_id p)).
  { intros c Hc. subst l. destruct (cm !! page_id p) as [k|] eqn:Hk.
    - by exists k.
    - by apply elem_of_nil in Hc. }
  assert (Hself : forall c, child_of c (page_id p) -> page_id c <> page_id p).
  { intros c Hc Heq. destruct Hknown as [Hroot|[a0 Ha0]].
    - by apply (root_not_child p c (page_id p)).
    - destruct (one_parent c (page_id p) p a0 Hc Ha0 Heq) as [_ <-].
      rewrite (Hparent _ Ha0) in Hfresh. done. }
  assert (Hlinks1 : links_ok paths1).
  { intros c a x Hca Hx. subst paths1.
    destruct (decide (page_id c = page_id p)) as [Heq|Hne].
    - rewrite <- Heq, lookup_insert_eq in Hx. injection Hx as <-.
      destruct Hknown as [Hroot|[a0 Ha0]].
      + by destruct (root_not_child p c a Hroot Hca).
      + destruct (one_parent c a p a0 Hca Ha0 Heq) as [-> ->].
        exists parent_path. split; [|done].
        rewrite lookup_insert_ne; [by apply Hparent|].
        intros E. rewrite E, (Hparent _ Ha0) in Hfresh. done.
    - rewrite lookup_insert_ne in Hx by done.
      destruct (Hlinks c a x Hca Hx) as (y & Hy & ->).
      exists y. split; [|done]. rewrite lookup_insert_ne; [done|].
      intros E. rewrite <- E, Hfresh in Hy. done. }
  destruct (pages_loop depth page_path l (fun c => IH c page_path))
    with (paths := paths1)
    as (paths' & Hloop & Hsub & Hlinks' & Hadd & Hdone & Hall).
  - subst l. destruct (cm !! page_id p) as [k|] eqn:Hk; simpl.
    + by eapply children_ids_distinct.
    + constructor.
  - apply unvisited_shrinks; [by apply known_in_universe|done|done].
  - done.
  - intros c Hc. right. exists (page_id p). by apply Hl.
  - intros c Hc. subst paths1.
    rewrite lookup_insert_ne by (symmetry; by apply Hself, Hl).
    destruct (paths !! page_id c) as [x|] eqn:Hx; [|done].
    destruct (Hlinks c (page_id p) x (Hl c Hc) Hx) as (y & Hy & _).
    congruence.
  - intros c a Hc Ha. subst paths1.
    destruct (one_parent c a c (page_id p) Ha (Hl c Hc) eq_refl) as [_ ->].
    apply lookup_insert_eq.
  - assert (Hsub1 : paths ⊆ paths1) by (by apply insert_subseteq).
    exists paths'. split_and!.
    + done.
    + eapply lookup_weaken; [|exact Hsub]. apply lookup_insert_eq.
    + by etrans.
    + done.
    + intros k Hk Hk'. destruct (decide (k = page_id p)) as [->|Hne]; [by left|].
      right. destruct (Hadd k) as [(c & Hc & <-)|(c & b & ? & ? & Hb & ?)].
      * subst paths1. by rewrite lookup_insert_ne.
      * done.
      * exists c, (page_id p). split_and!; [by apply Hl|done|done|].
        exists page_path. eapply lookup_weaken; [|exact Hsub].
        apply lookup_insert_eq.
      * exists c, b. split_and!; try done. by eapply lookup_weaken_None.
    + intros c b Hcb Hb Hb'. destruct (decide (b = page_id p)) as [->|Hne].
      * exists (step_path page_path c). apply Hall.
        destruct Hcb as (k & Hk & Hc). subst l. by rewrite Hk.
      * apply (Hdone c b); [done| |done].
        subst paths1. by rewrite lookup_insert_ne.
Qed.

(** The traversal from the roots of a forest over unique ids. *)
Lemma forest_paths depth :
  size universe <= depth ->
  exists paths,
    fold_left
      (fun acc root_page =>
         match acc with
         | Some ps => process_page depth cm root_page output_dir ps
         | None => None
         end) rts (Some ∅) = Some paths /\
    (forall r, r ∈ rts -> paths !! page_id r = Some (step_path output_dir r)) /\
    (forall c a, child_of c a ->
       paths !! page_id c = (fun y => step_path y c) <$> paths !! a).
Proof.
  intros Hsize.
  destruct (pages_loop depth output_dir rts (fun c => process_page_ok depth c _)
              roots_distinct ∅)
    as (paths & Hloop & _ & Hlinks & _ & Hdone & Hall).
  - etrans; [apply subseteq_size|exact Hsize].
    intros y. rewrite elem_of_difference. tauto.
  - intros c a x _ Hx. by rewrite lookup_empty in Hx.
  - intros r Hr. by left.
  - intros r _. apply lookup_empty.
  - intros r a Hr Hra. by destruct (root_not_child r r a Hr Hra).
  - exists paths. split_and!; [done|done|].
    intros c a Hca. destruct (paths !! page_id c) as [x|] eqn:Hx.
    + destruct (Hlinks c a x Hca Hx) as (y & -> & ->). done.
    + destruct (paths !! a) as [y|] eqn:Hy; [|done].
      destruct (Hdone c a Hca) as [x' Hx']; [apply lookup_empty|by exists y|].
      congruence.
Qed.

(** The same traversal, with the keys it assigns. *)
Lemma forest_paths_keys depth :
  size universe <= depth ->
  exists paths,
    fold_left
      (fun acc root_page =>
         match acc with
         | Some ps => process_page depth cm root_page output_dir ps
         | None => None
         end) rts (Some ∅) = Some paths /\
    (forall r, r ∈ rts -> paths !! page_id r = Some (step_path output_dir r)) /\
    (forall c a, child_of c a ->
       paths !! page_id c = (fun y => step_path y c) <$> paths !! a) /\
    (forall k, is_Some (paths !! k) ->
       (exists r, r ∈ rts /\ page_id r = k) \/
       (exists c a, child_of c a /\ page_id c = k)).
Proof.
  intros Hsize.
  destruct (pages_loop depth output_dir rts (fun c => process_page_ok depth c _)
              roots_distinct ∅)
    as (paths & Hloop & _ & Hlinks & Hadd & Hdone & Hall).
  - etrans; [apply subseteq_size|exact Hsize].
    intros y. rewrite elem_of_difference. tauto.
  - intros c a x _ Hx. by rewrite lookup_empty in Hx.
  - intros r Hr. by left.
  - intros r _. apply lookup_empty.
  - intros r a Hr Hra. by destruct (root_not_child r r a Hr Hra).
  - exists paths. split_and!; [done|done| |].
    + intros c a Hca. destruct (paths !! page_id c) as [x|] eqn:Hx.
      * destruct (Hlinks c a x Hca Hx) as (y & -> & ->). done.
      * destruct (paths !! a) as [y|] eqn:Hy; [|done].
        destruct (Hdone c a Hca) as [x' Hx']; [apply lookup_empty|by exists y|].
        congruence.
    + intros k Hk. destruct (Hadd k (lookup_empty k) Hk)
        as [(r & ? & ?)|(c & a & ? & ? & _)].
      * left. by exists r.
      * right. by exists c, a.
Qed.

End ForestTraversal.

Lemma unique_ids (pages : list Page) (x y : Page) :
  NoDup (page_id <$> pages) -> x ∈ pages -> y ∈ pages ->
  page_id x = page_id y -> x = y.
Proof.
  induction pages as [|p pages IH]; intros Hnd Hx Hy Hid.
  - by apply elem_of_nil in Hx.
  - rewrite fmap_cons in Hnd. apply NoDup_cons in Hnd as [Hp Hnd].
    apply elem_of_cons in Hx as [->|Hx]; apply elem_of_cons in Hy as [->|Hy].
    + done.
    + exfalso. apply Hp. rewrite Hid. apply list_elem_of_fmap. by exists y.
    + exfalso. apply Hp. rewrite <- Hid. apply list_elem_of_fmap. by exists x.
    + by apply IH.
Qed.

Lemma build_hierarchy_child_of pages c a :
  child_of (children_map (build_hierarchy pages)) c a <->
  c ∈ pages /\ is_child_of (export_page_ids pages) a c.
Proof.
  unfold child_of. split.
  - intros (l & Hl & Hc). apply build_hierarchy_children in Hl as [_ ->].
    apply list_elem_of_filter in Hc. tauto.
  - intros [Hc Hca]. exists (filter (is_child_of (export_page_ids pages) a) pages).
    assert (Hin : c ∈ filter (is_child_of (export_page_ids pages) a) pages)
      by (by apply list_elem_of_filter).
    split; [|done]. apply build_hierarchy_children. split; [|done].
    intros E. rewrite E in Hin. by apply elem_of_nil in Hin.
Qed.

Section PathAssignerProperties.

Context `{C : Collaborators}.

(** C2. For the hierarchy that [build_hierarchy] makes of pages with unique
    ids, [determine_page_paths] (given a recursion depth of at least the
    number of pages) returns, and in the paths it assigns every root has
    the path [output_dir / sanitize_filename(title)], and every page of a
    children list has the path of its parent extended by the one segment
    [sanitize_filename(title)] (it has a path exactly when its parent has
    one). *)
Theorem determine_page_paths_invariant pages (output_dir : Path) depth :
  NoDup (page_id <$> pages) ->
  length pages <= depth ->
  let hierarchy := build_hierarchy pages in
  exists page_paths,
    determine_page_paths depth hierarchy output_dir ∅ = Some page_paths /\
    (forall root, root ∈ roots hierarchy ->
       page_paths !! page_id root
       = Some (joinpath output_dir (sanitize_filename (page_title root)))) /\
    (forall parent_id children page,
       children_map hierarchy !! parent_id = Some children ->
       page ∈ children ->
       page_paths !! page_id page
       = (fun parent_path =>
            joinpath parent_path (sanitize_filename (page_title page)))
           <$> page_paths !! parent_id).
Proof.
  intros Hids Hdepth hierarchy.
  pose proof (NoDup_fmap_1 _ _ Hids) as Hnd.
  set (ids := export_page_ids pages).
  assert (Hroot : forall r, r ∈ roots hierarchy -> r ∈ pages /\ is_root ids r).
  { intros r. subst hierarchy. rewrite build_hierarchy_roots.
    rewrite list_elem_of_filter. tauto. }
  destruct (forest_paths (roots hierarchy) (children_map hierarchy)
              output_dir ids) with (depth := depth)
    as (paths & Hrun & Hroots & Hchildren).
  - intros c a c' a' Hc Hc' Hid.
    apply build_hierarchy_child_of in Hc as [Hc [Hp _]], Hc' as [Hc' [Hp' _]].
    assert (c = c') as <- by (by eapply unique_ids). split; congruence.
  - intros r c a Hr Hc Hid. apply Hroot in Hr as [Hr Hr_root].
    apply build_hierarchy_child_of in Hc as [Hc [Hp Ha]].
    assert (r = c) as -> by (by eapply unique_ids).
    unfold is_root in Hr_root. rewrite Hp in Hr_root. done.
  - subst hierarchy. rewrite build_hierarchy_roots.
    apply NoDup_fmap_2_strong; [|by apply NoDup_filter].
    intros x y Hx Hy. apply list_elem_of_filter in Hx as [_ Hx], Hy as [_ Hy].
    by apply (unique_ids pages).
  - intros a l Hl. apply build_hierarchy_children in Hl as [_ ->].
    by apply NoDup_filter.
  - intros c a Hc. apply build_hierarchy_child_of in Hc as [Hc _].
    apply elem_of_list_to_set, list_elem_of_fmap. by exists c.
  - intros r Hr. apply Hroot in Hr as [Hr _].
    apply elem_of_list_to_set, list_elem_of_fmap. by exists r.
  - subst ids. unfold export_page_ids.
    rewrite size_list_to_set by done. by rewrite length_fmap.
  - exists paths. split_and!; [done | done |].
    intros parent_id children page Hl Hin.
    apply Hchildren. by exists children.
Qed.

End PathAssignerProperties.

(** ** The properties on the sample space *)

Lemma sample_ids_distinct : NoDup (page_id <$> Sample.space).
Proof. apply (bool_decide_unpack _). by vm_compute. Qed.

Lemma build_hierarchy_places_each_page_once_witness :
  exists l, children_map (build_hierarchy Sample.space) !! of_string "1" = Some l
            /\ occurs_once Sample.child_page l.
Proof.
  destruct (build_hierarchy_places_each_page_once Sample.space Sample.child_page)
    as (_ & _ & H & _).
  - apply (bool_decide_unpack _). by vm_compute.
  - apply (bool_decide_unpack _). by vm_compute.
  - destruct (H (of_string "1")) as (_ & Hl & _); [reflexivity | | exact Hl].
    apply elem_of_list_to_set. apply (bool_decide_unpack _). by vm_compute.
Defined.

Lemma determine_page_paths_invariant_witness :
  let C := Sample.env None (Sample.always []) in
  let hierarchy := build_hierarchy Sample.space in
  exists page_paths,
    determine_page_paths 3 hierarchy Sample.out ∅ = Some page_paths /\
    (forall root, root ∈ roots hierarchy ->
       page_paths !! page_id root
       = Some (joinpath Sample.out (sanitize_filename (page_title root)))) /\
    (forall parent_id children page,
       children_map hierarchy !! parent_id = Some children ->
       page ∈ children ->
       page_paths !! page_id page
       = (fun parent_path =>
            joinpath parent_path (sanitize_filename (page_title page)))
           <$> page_paths !! parent_id).
Proof.
  intros C.
  apply (@determine_page_paths_invariant C Sample.space Sample.out 3).
  - apply (bool_decide_unpack _). by vm_compute.
  - simpl. lia.
Defined.

Lemma fetch_all_pages_since_filter_witness :
  let S := Sample.source in
  exists returned,
    fetch_all_pages (Some Sample.since) 1 = Some returned /\
    returned = filter (fun p => since_includes Sample.since p = true)
                      Sample.space /\
    forall page,
      page ∈ returned <->
      page ∈ Sample.space /\
      (timestamp_missing page \/ timestamp_unparsable page \/
       modified_on_or_after Sample.since page).
Proof.
  intros S.
  apply (@fetch_all_pages_since_filter S Sample.since 1 Sample.space).
  - reflexivity.
  - reflexivity.
Defined.

Lemma export_page_writes_index_md_witness :
  let C := Sample.env (Some [Sample.diagram]) (Sample.always []) in
  let page_path : Path := joinpath Sample.out (of_string "Root") in
  exists events url_mapping,
    download_attachments (page_id Sample.root_page) page_path
      = (events, url_mapping) /\
    export_page {[ of_string "1" := page_path ]} Sample.root_page =
      Some (Mkdir page_path :: events ++
            [WriteText (joinpath page_path (of_string "index.md"))
               (front_matter (page_labels Sample.root_page)
                ++ title_heading (page_title Sample.root_page)
                ++ convert_to_markdown
                     (handle_drawio_embeds
                        (default [] (page_body Sample.root_page)))
                     url_mapping)]) /\
    (front_matter (page_labels Sample.root_page) = []
     <-> page_labels Sample.root_page = []).
Proof.
  intros C page_path.
  apply (@export_page_writes_index_md C
           {[ of_string "1" := page_path ]} Sample.root_page page_path).
  - apply lookup_singleton_eq.
  - reflexivity.
  - reflexivity.
Defined.

(** ** Runs on concrete inputs *)

Example sanitize_diagram :
  sanitize_filename (of_string "diagram v1.png") = of_string "diagram_v1.png".
Proof. reflexivity. Qed.

Example sanitize_grand_child :
  sanitize_filename (of_string " Grand   Child? ") = of_string "Grand_Child".
Proof. reflexivity. Qed.

Example sanitize_reserved_only :
  sanitize_filename (of_string "<>:/\|?*") = [].
Proof. reflexivity. Qed.

Example replace_empty_pattern :
  Str.replace [] (of_string "-") (of_string "ab") = of_string "-a-b-".
Proof. reflexivity. Qed.

Example replace_no_overlap :
  Str.replace (of_string "aa") (of_string "b") (of_string "aaa")
  = of_string "ba".
Proof. reflexivity. Qed.

Example squeeze_four_newlines :
  squeeze_newlines 0 (of_string "a" ++ repeat newline 4 ++ of_string "b")
  = of_string "a" ++ repeat newline 2 ++ of_string "b".
Proof. reflexivity. Qed.

Example drawio_embed_replaced :
  handle_drawio_embeds
    (of_string "<p>x</p><ac:structured-macro ac:name=" ++ [dquote]
     ++ of_string "drawio" ++ [dquote]
     ++ of_string " ac:macro-id=1><ac:parameter>d</ac:parameter>"
     ++ of_string "</ac:structured-macro><p>y</p>")
  = of_string "<p>x</p>" ++ drawio_placeholder ++ of_string "<p>y</p>".
Proof. vm_compute. reflexivity. Qed.

Example other_macro_kept :
  let html := of_string "<ac:structured-macro ac:name=info>"
              ++ of_string "</ac:structured-macro>" in
  handle_drawio_embeds html = html.
Proof. vm_compute. reflexivity. Qed.

(** The chain Root, Child, Grand Child of the specification. *)
Example chain_paths :
  let C := Sample.env None (Sample.always []) in
  exists page_paths,
    determine_page_paths 3 (build_hierarchy Sample.space) Sample.out ∅
      = Some page_paths /\
    page_paths !! of_string "1" = Some [of_string "out"; of_string "Root"] /\
    page_paths !! of_string "2"
      = Some [of_string "out"; of_string "Root"; of_string "Child"] /\
    page_paths !! of_string "3"
      = Some [of_string "out"; of_string "Root"; of_string "Child";
              of_string "Grand_Child"].
Proof. intros C. eexists. split; [vm_compute; reflexivity|]. by vm_compute. Qed.

(** A page whose parent is left out of the export set becomes a root. *)
Example filtered_parent_gives_root :
  roots (build_hierarchy [Sample.child_page; Sample.grand_child_page])
  = [Sample.child_page].
Proof. by vm_compute. Qed.

(** The page modified before the since date is left out; the page without
    a timestamp is kept. *)
Example since_filter_run :
  let S := Sample.source in
  fetch_all_pages (Some Sample.since) 1
  = Some [Sample.root_page; Sample.child_page].
Proof. reflexivity. Qed.

(** A filename is rewritten inside a longer reference that contains it. *)
Example filename_inside_reference :
  let m := [(of_string "logo.png", of_string "attachments/logo.png");
            (of_string "/download/logo.png", of_string "attachments/logo.png")] in
  substitute_links m (of_string "![](/download/logo.png)")
  = of_string "![](/download/attachments/logo.png)".
Proof. reflexivity. Qed.

(** * Further properties *)

Local Open Scope N_scope.

(** ** Name sanitizer *)

Lemma tidy_no_space b (s : pystr) c :
  tidy b s = true -> c ∈ s -> is_space c = false.
Proof.
  revert b. induction s as [|x t IH]; intros b Ht Hc.
  - by apply elem_of_nil in Hc.
  - simpl in Ht. apply andb_true_iff in Ht as [Hx Ht].
    apply andb_true_iff in Hx as [_ Hx]. apply negb_true_iff in Hx.
    apply elem_of_cons in Hc as [->|Hc]; [done|].
    destruct (x =? underscore).
    + apply andb_true_iff in Ht as [_ Ht]. by eapply IH.
    + by eapply IH.
Qed.

Lemma tidy_no_double b (s : pystr) :
  tidy b s = true ->
  Str.occurs [underscore; underscore] s = false /\
  (b = true -> Str.startswith [underscore] s = false).
Proof.
  revert b. induction s as [|x t IH]; intros b Ht; [by destruct b|].
  simpl in Ht. apply andb_true_iff in Ht as [_ Ht].
  cbn [Str.occurs Str.startswith].
  destruct (N.eqb_spec x underscore) as [->|Hx].
  - apply andb_true_iff in Ht as [Hb Ht]. apply negb_true_iff in Hb. subst b.
    destruct (IH true Ht) as [Hocc Hstart]. split; [|done].
    rewrite Hocc, orb_false_r. simpl.
    specialize (Hstart eq_refl). destruct t as [|y t]; [done|].
    simpl in Hstart. by rewrite andb_true_r in *.
  - destruct (IH false Ht) as [Hocc _].
    assert ((underscore =? x) = false) as -> by (apply N.eqb_neq; congruence).
    by rewrite Hocc.
Qed.

(** X1. A sanitized name contains no whitespace and no two underscores in a
    row, and it does not start with an underscore. *)
Theorem sanitize_filename_shape (s : pystr) :
  (forall c, c ∈ sanitize_filename s -> is_space c = false) /\
  Str.occurs [underscore; underscore] (sanitize_filename s) = false /\
  head (sanitize_filename s) <> Some underscore.
Proof.
  pose proof (sanitize_filename_tidy s) as Ht.
  destruct (tidy_no_double _ _ Ht) as [Hocc Hstart]. split_and!.
  - intros c. by apply tidy_no_space with (b := true).
  - done.
  - specialize (Hstart eq_refl).
    destruct (sanitize_filename s) as [|x t]; [done|].
    simpl in Hstart. rewrite andb_true_r in Hstart.
    intros [= ->]. by vm_compute in Hstart.
Qed.

(** X2. The names that [sanitize_filename] returns unchanged are the tidy
    names of at most 100 characters that do not end in an underscore. *)
Theorem sanitize_filename_fixed_points (t : pystr) :
  sanitize_filename t = t <->
  tidy true t = true /\ (length t <= 100)%nat /\ last t <> Some underscore.
Proof.
  split.
  - intros Hfix. split_and!.
    + rewrite <- Hfix. apply sanitize_filename_tidy.
    + rewrite <- Hfix. apply truncate_length.
    + intros Hlast. pose proof (sanitize_filename_twice t) as Htwice.
      rewrite !Hfix in Htwice. rewrite Htwice in Hlast.
      by apply rstrip_last in Hlast.
  - intros (Ht & Hlen & Hlast). rewrite sanitize_tidy by done.
    apply rstrip_id. by apply no_trailing_strip_char.
Qed.

Lemma sanitize_filename_fixed_points_witness :
  sanitize_filename (of_string "Grand_Child") = of_string "Grand_Child".
Proof.
  apply (sanitize_filename_fixed_points (of_string "Grand_Child")).
  split_and!; [reflexivity | simpl; lia | vm_compute; discriminate].
Defined.

(** X3. A sanitized name is never longer than the title it comes from. *)
Theorem sanitize_filename_no_longer (s : pystr) :
  (length (sanitize_filename s) <= length s)%nat.
Proof.
  etrans; [apply prefix_length, sanitize_prefix_strip|].
  etrans; [apply suffix_length, lstrip_suffix|].
  etrans; [apply collapse_runs_length|].
  rewrite replace_invalid_map. by rewrite length_map.
Qed.

(** ** Page fetcher *)

Lemma fetch_loop_requests (space : list Page) parse fuel start all_pages :
  (length space - start < fuel * limit)%nat ->
  @fetch_loop (Build_PageSource (paged space) parse) fuel start all_pages
  = Some (all_pages ++ drop start space).
Proof.
  revert start all_pages.
  induction fuel as [|fuel IH]; intros start all_pages Hfuel; [lia|].
  cbn [fetch_loop get_all_pages_from_space]. unfold paged.
  pose proof (length_drop space start) as Hlen.
  destruct (take limit (drop start space)) as [|p pages] eqn:Htake.
  - destruct (drop start space); [by rewrite app_nil_r | done].
  - cbv beta iota zeta. rewrite <- Htake. clear p pages Htake.
    destruct (Nat.ltb_spec (length (take limit (drop start space))) limit)
      as [Hlt|Hge].
    + rewrite length_take in Hlt. by rewrite take_ge by lia.
    + rewrite length_take in Hge. rewrite IH by (unfold limit in *; lia).
      rewrite <- app_assoc. do 2 f_equal.
      rewrite <- (take_drop limit (drop start space)) at 2.
      by rewrite drop_drop.
Qed.

(** X4. When the remote serves a space of [n] pages [limit] at a time,
    [fetch_all_pages] without a since date returns all its pages, in the
    order of the listing, within [n / limit + 1] requests. *)
Theorem fetch_all_pages_whole_space (space : list Page) parse fuel :
  (length space / limit < fuel)%nat ->
  @fetch_all_pages (Build_PageSource (paged space) parse) None fuel
  = Some space.
Proof.
  intros Hfuel. unfold fetch_all_pages.
  rewrite fetch_loop_requests; [done|].
  rewrite Nat.sub_0_r.
  pose proof (Nat.div_mod_eq (length space) limit) as Hdiv.
  pose proof (Nat.mod_upper_bound (length space) limit) as Hmod.
  unfold limit in *. lia.
Qed.

Lemma fetch_all_pages_whole_space_witness :
  @fetch_all_pages (Build_PageSource (paged (repeat Sample.child_page 120))
                                     Sample.fromisoformat) None 3
  = Some (repeat Sample.child_page 120).
Proof.
  apply fetch_all_pages_whole_space. vm_compute. lia.
Defined.

(** ** Hierarchy builder *)

Lemma children_pages_insert (cm : gmap pystr (list Page)) a page :
  concat ((map_to_list
             (<[a := default [] (cm !! a) ++ [page]]> cm)).*2)
  ≡ₚ concat ((map_to_list cm).*2) ++ [page].
Proof.
  rewrite <- insert_delete_eq.
  rewrite map_to_list_insert by apply lookup_delete_eq.
  destruct (cm !! a) as [l|] eqn:Hl; simpl.
  - rewrite <- (map_to_list_delete cm a l Hl). simpl.
    rewrite <- !app_assoc. apply Permutation_app_head, Permutation_app_comm.
  - rewrite delete_id by done. apply Permutation_cons_append.
Qed.

Lemma place_page_pages ids h page :
  hierarchy_pages (place_page ids h page) ≡ₚ hierarchy_pages h ++ [page].
Proof.
  unfold hierarchy_pages, place_page.
  destruct (parent_of page) as [a|]; [destruct (decide (a ∈ ids))|]; simpl.
  - rewrite children_pages_insert. by rewrite app_assoc.
  - rewrite <- !app_assoc. apply Permutation_app_head, Permutation_app_comm.
  - rewrite <- !app_assoc. apply Permutation_app_head, Permutation_app_comm.
Qed.

Lemma build_loop_pages ids pages h :
  hierarchy_pages (fold_left (place_page ids) pages h)
  ≡ₚ hierarchy_pages h ++ pages.
Proof.
  revert h. induction pages as [|p pages IH]; intros h; simpl.
  - by rewrite app_nil_r.
  - rewrite IH, place_page_pages. by rewrite <- app_assoc.
Qed.

(** X5. [build_hierarchy] neither loses nor invents a page: the roots and
    the children lists together hold the pages of the export list, each as
    many times as the list has it. *)
Theorem build_hierarchy_partition (pages : list Page) :
  hierarchy_pages (build_hierarchy pages) ≡ₚ pages.
Proof. unfold build_hierarchy. by rewrite build_loop_pages. Qed.

(** X6. The lists of a hierarchy keep the order of the export list: [roots]
    is the sublist of its root pages, and every entry of [children_map] is
    keyed by the id of an exported page and holds the non-empty sublist of
    the pages whose last ancestor has that id. *)
Theorem build_hierarchy_keeps_order (pages : list Page) :
  let h := build_hierarchy pages in
  let ids := export_page_ids pages in
  roots h = filter (is_root ids) pages /\
  forall a l, children_map h !! a = Some l ->
    l = filter (is_child_of ids a) pages /\ l <> [] /\
    exists parent, parent ∈ pages /\ page_id parent = a.
Proof.
  intros h ids. split; [apply build_hierarchy_roots|].
  intros a l Hl. apply build_hierarchy_children in Hl as [Hne ->].
  split_and!; [done | done |].
  destruct (filter (is_child_of ids a) pages) as [|c k] eqn:Hf; [done|].
  assert (Hc : c ∈ filter (is_child_of ids a) pages) by (rewrite Hf; left).
  apply list_elem_of_filter in Hc as [[_ Ha] _].
  apply elem_of_list_to_set, list_elem_of_fmap in Ha as (parent & -> & ?).
  by exists parent.
Qed.

(** ** Path assigner *)

Section PathCoverage.

Context `{C : Collaborators}.

(** The paths of the hierarchy of an export list with unique ids. *)
Lemma hierarchy_paths pages (output_dir : Path) depth :
  NoDup (page_id <$> pages) ->
  (length pages <= depth)%nat ->
  exists page_paths,
    determine_page_paths depth (build_hierarchy pages) output_dir ∅
      = Some page_paths /\
    (forall root, root ∈ pages -> is_root (export_page_ids pages) root ->
       page_paths !! page_id root = Some (step_path output_dir root)) /\
    (forall page a, page ∈ pages ->
       is_child_of (export_page_ids pages) a page ->
       page_paths !! page_id page
       = (fun y => step_path y page) <$> page_paths !! a) /\
    (forall k, is_Some (page_paths !! k) -> k ∈ export_page_ids pages).
Proof.
  intros Hids Hdepth.
  pose proof (NoDup_fmap_1 _ _ Hids) as Hnd.
  set (hierarchy := build_hierarchy pages).
  set (ids := export_page_ids pages).
  assert (Hroot : forall r, r ∈ roots hierarchy <-> r ∈ pages /\ is_root ids r).
  { intros r. subst hierarchy. rewrite build_hierarchy_roots.
    rewrite list_elem_of_filter. tauto. }
  assert (Hin : forall p, p ∈ pages -> page_id p ∈ ids).
  { intros p Hp. apply elem_of_list_to_set, list_elem_of_fmap. by exists p. }
  destruct (forest_paths_keys (roots hierarchy) (children_map hierarchy)
              output_dir ids) with (depth := depth)
    as (paths & Hrun & Hroots & Hchildren & Hkeys).
  - intros c a c' a' Hc Hc' Hid.
    apply build_hierarchy_child_of in Hc as [Hc [Hp _]], Hc' as [Hc' [Hp' _]].
    assert (c = c') as <- by (by eapply unique_ids). split; congruence.
  - intros r c a Hr Hc Hid. apply Hroot in Hr as [Hr Hr_root].
    apply build_hierarchy_child_of in Hc as [Hc [Hp Ha]].
    assert (r = c) as -> by (by eapply unique_ids).
    unfold is_root in Hr_root. rewrite Hp in Hr_root. done.
  - subst hierarchy. rewrite build_hierarchy_roots.
    apply NoDup_fmap_2_strong; [|by apply NoDup_filter].
    intros x y Hx Hy. apply list_elem_of_filter in Hx as [_ Hx], Hy as [_ Hy].
    by apply (unique_ids pages).
  - intros a l Hl. apply build_hierarchy_children in Hl as [_ ->].
    by apply NoDup_filter.
  - intros c a Hc. apply build_hierarchy_child_of in Hc as [Hc _]. by apply Hin.
  - intros r Hr. apply Hroot in Hr as [Hr _]. by apply Hin.
  - subst ids. unfold export_page_ids.
    rewrite size_list_to_set by done. by rewrite length_fmap.
  - exists paths. split_and!; [done | | |].
    + intros r Hr Hr_root. apply Hroots, Hroot. done.
    + intros p a Hp Hpa. apply Hchildren, build_hierarchy_child_of. done.
    + intros k Hk. destruct (Hkeys k Hk) as [(r & Hr & <-)|(c & a & Hc & <-)].
      * apply Hroot in Hr as [Hr _]. by apply Hin.
      * apply build_hierarchy_child_of in Hc as [Hc _]. by apply Hin.
Qed.

Lemma ranked_pages_have_paths (pages : list Page) (output_dir : Path)
    (paths : gmap pystr Path) :
  (forall root, root ∈ pages -> is_root (export_page_ids pages) root ->
     paths !! page_id root = Some (step_path output_dir root)) ->
  (forall page a, page ∈ pages ->
     is_child_of (export_page_ids pages) a page ->
     paths !! page_id page = (fun y => step_path y page) <$> paths !! a) ->
  (forall p q, p ∈ pages -> q ∈ pages -> parent_of p = Some (page_id q) ->
     (length (page_ancestors q) < length (page_ancestors p))%nat) ->
  forall p, p ∈ pages -> is_Some (paths !! page_id p).
Proof.
  intros Hroots Hchildren Hrank p.
  remember (length (page_ancestors p)) as n eqn:Hn.
  revert p Hn. induction (lt_wf n) as [n _ IH]. intros p -> Hp.
  destruct (decide (is_root (export_page_ids pages) p)) as [Hr|Hr].
  { rewrite Hroots by done. by eexists. }
  unfold is_root in Hr. destruct (parent_of p) as [a|] eqn:Ha; [|done].
  apply dec_stable in Hr.
  rewrite (Hchildren p a Hp) by done.
  pose proof Hr as Hr'.
  apply elem_of_list_to_set, list_elem_of_fmap in Hr' as (q & -> & Hq).
  apply fmap_is_Some. eapply IH; [|done|done]. by apply Hrank.
Qed.

(** X7. When the ids are unique and every exported parent has a shorter
    ancestor chain than its child, [determine_page_paths] gives a path to
    exactly the exported ids: the lookup of [export_page] finds one for every
    page. *)
Theorem determine_page_paths_covers pages (output_dir : Path) depth :
  NoDup (page_id <$> pages) ->
  (length pages <= depth)%nat ->
  (forall p q, p ∈ pages -> q ∈ pages -> parent_of p = Some (page_id q) ->
     (length (page_ancestors q) < length (page_ancestors p))%nat) ->
  exists page_paths,
    determine_page_paths depth (build_hierarchy pages) output_dir ∅
      = Some page_paths /\
    forall k, is_Some (page_paths !! k) <-> k ∈ export_page_ids pages.
Proof.
  intros Hids Hdepth Hrank.
  destruct (hierarchy_paths pages output_dir depth Hids Hdepth)
    as (paths & Hrun & Hroots & Hchildren & Hkeys).
  exists paths. split; [done|]. intros k. split; [apply Hkeys|].
  intros Hk. apply elem_of_list_to_set, list_elem_of_fmap in Hk as (p & -> & Hp).
  by eapply ranked_pages_have_paths.
Qed.

(** X8. Under the same conditions on the ids, pages that sanitize to the
    same name under one parent, or at the top, are given one and the same
    path: nothing tells them apart. *)
Theorem determine_page_paths_collisions pages (output_dir : Path) depth :
  NoDup (page_id <$> pages) ->
  (length pages <= depth)%nat ->
  exists page_paths,
    determine_page_paths depth (build_hierarchy pages) output_dir ∅
      = Some page_paths /\
    forall p q, p ∈ pages -> q ∈ pages ->
      sanitize_filename (page_title p) = sanitize_filename (page_title q) ->
      (is_root (export_page_ids pages) p /\ is_root (export_page_ids pages) q) \/
      (exists a, is_child_of (export_page_ids pages) a p /\
                 is_child_of (export_page_ids pages) a q) ->
      page_paths !! page_id p = page_paths !! page_id q.
Proof.
  intros Hids Hdepth.
  destruct (hierarchy_paths pages output_dir depth Hids Hdepth)
    as (paths & Hrun & Hroots & Hchildren & _).
  exists paths. split; [done|].
  intros p q Hp Hq Hname [[Hrp Hrq]|(a & Hap & Haq)].
  - rewrite !Hroots by done. unfold step_path. by rewrite Hname.
  - rewrite (Hchildren p a), (Hchildren q a) by done.
    unfold step_path. by rewrite Hname.
Qed.

(** X9. When the ids are unique and the ancestor chains agree (the parent of
    a page is exported and its chain is the chain of the page without its
    last id), the path of a page is the output directory followed by the
    sanitized titles of its ancestors, outermost first, and by its own. *)
Theorem determine_page_paths_follow_ancestors pages (output_dir : Path) depth :
  NoDup (page_id <$> pages) ->
  (length pages <= depth)%nat ->
  (forall p l a, p ∈ pages -> page_ancestors p = l ++ [a] ->
     exists q, q ∈ pages /\ page_id q = a /\ page_ancestors q = l) ->
  exists page_paths,
    determine_page_paths depth (build_hierarchy pages) output_dir ∅
      = Some page_paths /\
    forall p chain, p ∈ pages -> Forall (fun q => q ∈ pages) chain ->
      page_id <$> chain = page_ancestors p ->
      page_paths !! page_id p
      = Some (fold_left joinpath
                (sanitize_filename ∘ page_title <$> (chain ++ [p]))
                output_dir).
Proof.
  intros Hids Hdepth Hchain.
  destruct (hierarchy_paths pages output_dir depth Hids Hdepth)
    as (paths & Hrun & Hroots & Hchildren & _).
  exists paths. split; [done|]. intros p chain. revert p.
  induction chain as [|q chain IH] using rev_ind; intros p Hp Hall Hanc.
  - rewrite Hroots; [done | done |].
    unfold is_root, parent_of. by rewrite <- Hanc.
  - rewrite fmap_app in Hanc. simpl in Hanc.
    apply Forall_app in Hall as [Hall Hq]. rewrite Forall_singleton in Hq.
    assert (Hparent : parent_of p = Some (page_id q)).
    { unfold parent_of. rewrite <- Hanc. apply last_snoc. }
    rewrite (Hchildren p (page_id q) Hp).
    2:{ split; [done|]. apply elem_of_list_to_set, list_elem_of_fmap.
        by exists q. }
    destruct (Hchain p _ _ Hp (eq_sym Hanc)) as (q' & Hq' & Hid & Hanc').
    assert (q' = q) as -> by (by apply (unique_ids pages)).
    rewrite (IH q Hq Hall (eq_sym Hanc')). simpl.
    rewrite (fmap_app _ (chain ++ [q]) [p]), fold_left_app. done.
Qed.

End PathCoverage.

(** ** Attachment downloader *)

Section DownloadEffects.

Context `{C : Collaborators}.

Lemma download_one_step dir st a :
  download_one dir st a =
    if downloaded dir a
    then (st.1 ++ [written_file dir a],
          Dict.set (att_download a) (local_reference (att_title a))
            (Dict.set (att_title a) (local_reference (att_title a)) st.2))
    else st.
Proof.
  unfold download_one, downloaded, written_file, fetched_bytes, full_url.
  destruct (session_get _) as [content|]; [|done]. simpl.
  by destruct (write_ok _).
Qed.

Lemma download_loop_events dir l st :
  (fold_left (download_one dir) l st).1
  = st.1 ++ (written_file dir <$> filter (fun a => downloaded dir a = true) l).
Proof.
  revert st. induction l as [|a l IH]; intros st; simpl.
  - by rewrite app_nil_r.
  - rewrite IH, download_one_step, filter_cons.
    destruct (downloaded dir a) eqn:Hok.
    + rewrite decide_True by done. simpl. by rewrite <- app_assoc.
    + by rewrite decide_False by done.
Qed.

Lemma download_loop_last_writer dir k l st :
  Dict.get k (fold_left (download_one dir) l st).2
  = match last_writer dir k l with
    | Some v => Some v
    | None => Dict.get k st.2
    end.
Proof.
  revert st. induction l as [|a l IH]; intros st; [done|].
  cbn [fold_left]. rewrite IH. unfold last_writer. rewrite filter_cons.
  destruct (last (local_reference ∘ att_title <$>
                  filter (fun a => downloaded dir a = true /\ writes_key a k) l))
    as [v|] eqn:Hlast.
  - case_decide; [rewrite fmap_cons, last_cons|]; by rewrite Hlast.
  - destruct (downloaded dir a) eqn:Hok.
    + rewrite download_one_get by done. case_decide as Hw.
      * rewrite decide_True by done. rewrite fmap_cons, last_cons.
        by rewrite Hlast.
      * rewrite decide_False by tauto. by rewrite Hlast.
    + rewrite download_one_failed by done.
      rewrite decide_False by (intros [? _]; done). by rewrite Hlast.
Qed.

(** X10. For a listing that is fetched, with the attachments directory
    created, the entry of the returned [url_mapping] under any key is the
    local reference of the last downloaded attachment that has the key as its
    filename or as its download reference: the last writer wins, and a key
    that no downloaded attachment has is absent. *)
Theorem download_attachments_last_writer page_id page_path results k :
  let dir := joinpath page_path (of_string "attachments") in
  get_attachments page_id = Some results ->
  mkdir_ok dir = true ->
  Dict.get k (download_attachments page_id page_path).2
  = last_writer dir k results.
Proof.
  intros dir Hres Hmk. rewrite (download_attachments_loop _ _ _ Hres Hmk).
  fold dir. destruct results as [|a0 results]; [done|].
  rewrite download_loop_last_writer. by destruct (last_writer _ _ _).
Qed.

(** X11. [download_attachments] creates the attachments directory only for a
    non-empty listing, then writes one file per downloaded attachment, in
    the order of the listing, each inside that directory under the sanitized
    filename; when the listing cannot be fetched or is empty, or the
    directory cannot be created, it writes nothing and the mapping is
    empty. *)
Theorem download_attachments_effects page_id page_path :
  let dir := joinpath page_path (of_string "attachments") in
  (forall results,
     get_attachments page_id = Some results -> results <> [] ->
     mkdir_ok dir = true ->
     (download_attachments page_id page_path).1
     = Mkdir dir ::
       (written_file dir <$> filter (fun a => downloaded dir a = true) results))
  /\
  (get_attachments page_id = None \/ get_attachments page_id = Some [] \/
   mkdir_ok dir = false ->
   download_attachments page_id page_path = ([], [])).
Proof.
  intros dir. split.
  - intros results Hres Hne Hmk.
    rewrite (download_attachments_loop _ _ _ Hres Hmk). fold dir.
    destruct results as [|a0 results]; [done|].
    by rewrite download_loop_events.
  - unfold download_attachments, download_listed. fold dir.
    intros [->|[->|Hmk]]; [done|done|].
    destruct (get_attachments page_id) as [[|a0 results]|]; [done| |done].
    by rewrite Hmk.
Qed.

End DownloadEffects.

(** ** Newline clean-up *)

Lemma runs_below_three_repeat k m (s : pystr) :
  (k + m <= 2)%nat ->
  runs_below_three k (repeat newline m ++ s) = runs_below_three (k + m) s.
Proof.
  revert k. induction m as [|m IH]; intros k Hk; simpl.
  - by rewrite Nat.add_0_r.
  - rewrite IH by lia. replace (S k + m)%nat with (k + S m)%nat by lia.
    destruct (Nat.ltb_spec k 2); [done | lia].
Qed.

Lemma squeeze_newlines_runs run (s : pystr) :
  runs_below_three 0 (squeeze_newlines run s) = true.
Proof.
  revert run. induction s as [|c t IH]; intros run; simpl.
  - rewrite <- (app_nil_r (repeat _ _)).
    by rewrite runs_below_three_repeat by lia.
  - destruct (N.eqb_spec c newline) as [->|Hc]; [apply IH|].
    rewrite runs_below_three_repeat by lia. simpl.
    apply N.eqb_neq in Hc. rewrite Hc. apply IH.
Qed.

Lemma startswith_cons a b (p s : pystr) :
  Str.startswith (a :: p) (b :: s) = (a =? b) && Str.startswith p s.
Proof. reflexivity. Qed.

Lemma occurs_cons (p : pystr) c s :
  Str.occurs p (c :: s) = Str.startswith p (c :: s) || Str.occurs p s.
Proof. reflexivity. Qed.

Lemma startswith_newline (p : pystr) c s :
  Str.startswith (newline :: p) (c :: s)
  = (c =? newline) && Str.startswith p s.
Proof. by rewrite startswith_cons, N.eqb_sym. Qed.

Lemma runs_below_three_occurs k (s : pystr) :
  runs_below_three k s = true ->
  Str.occurs blank_run s = false /\
  ((1 <= k)%nat -> Str.startswith [newline; newline] s = false) /\
  ((2 <= k)%nat -> Str.startswith [newline] s = false).
Proof.
  revert k. induction s as [|c t IH]; intros k Hk; [done|].
  cbn [runs_below_three] in Hk. unfold blank_run.
  rewrite occurs_cons, !startswith_newline.
  destruct (c =? newline) eqn:Hc.
  - apply andb_true_iff in Hk as [Hlt Hk]. apply Nat.ltb_lt in Hlt.
    destruct (IH (S k) Hk) as (Hocc & H1 & H2).
    unfold blank_run in Hocc. rewrite Hocc, (H1 ltac:(lia)).
    split_and!; [done | | lia].
    intros Hk1. apply H2. lia.
  - destruct (IH 0%nat Hk) as (Hocc & _ & _).
    unfold blank_run in Hocc. by rewrite Hocc.
Qed.

Lemma occurs_runs_below_three k (s : pystr) :
  (k <= 2)%nat ->
  Str.occurs blank_run s = false ->
  ((1 <= k)%nat -> Str.startswith [newline; newline] s = false) ->
  ((2 <= k)%nat -> Str.startswith [newline] s = false) ->
  runs_below_three k s = true.
Proof.
  revert k. induction s as [|c t IH]; intros k Hk Hocc H1 H2; [done|].
  cbn [runs_below_three]. unfold blank_run in *.
  rewrite occurs_cons in Hocc. rewrite !startswith_newline in *.
  apply orb_false_iff in Hocc as [Hstart Hocc].
  destruct (c =? newline) eqn:Hc; cbn [andb] in *.
  - assert (Hlt : (k < 2)%nat).
    { destruct (decide (2 <= k)%nat) as [Hk2|]; [|lia]. by specialize (H2 Hk2). }
    apply andb_true_iff. split; [by apply Nat.ltb_lt|].
    apply IH; [lia | done | by intros _ | ].
    intros Hk1. apply H1. lia.
  - apply IH; [lia | done | lia | lia].
Qed.

Lemma squeeze_newlines_unchanged run (s : pystr) :
  (run <= 2)%nat -> runs_below_three run s = true ->
  squeeze_newlines run s = repeat newline run ++ s.
Proof.
  revert run. induction s as [|c t IH]; intros run Hrun Hs; simpl in *.
  - by rewrite app_nil_r, Nat.min_l by done.
  - destruct (c =? newline) eqn:Hc.
    + apply andb_true_iff in Hs as [Hlt Hs]. apply Nat.ltb_lt in Hlt.
      rewrite IH by (done || lia). apply N.eqb_eq in Hc. subst c.
      change (repeat newline (S run)) with (newline :: repeat newline run).
      by rewrite repeat_cons, <- app_assoc.
    + rewrite (IH 0%nat) by (done || lia). by rewrite Nat.min_l by done.
Qed.

Lemma squeeze_newlines_keeps_text run (s : pystr) :
  filter (fun c => c <> newline) (squeeze_newlines run s)
  = filter (fun c => c <> newline) s.
Proof.
  assert (Hrep : forall m, filter (fun c => c <> newline) (repeat newline m) = []).
  { induction m as [|m IH]; [done|]. simpl. by rewrite filter_cons_False by tauto. }
  revert run. induction s as [|c t IH]; intros run; simpl; [apply Hrep|].
  destruct (N.eqb_spec c newline) as [->|Hc].
  - rewrite filter_cons_False by tauto. apply IH.
  - rewrite filter_app, Hrep, !filter_cons_True by done. simpl. by rewrite IH.
Qed.

Section CleanUp.

Context `{C : Collaborators}.

(** X12. The Markdown that [convert_to_markdown] returns never has three
    newlines in a row. *)
Theorem convert_to_markdown_no_blank_run html_content url_mapping :
  Str.occurs blank_run (convert_to_markdown html_content url_mapping) = false.
Proof.
  unfold convert_to_markdown.
  by destruct (runs_below_three_occurs 0 _ (squeeze_newlines_runs 0
       (substitute_links url_mapping (markdownify html_content)))).
Qed.

(** X13. The newline clean-up only deletes newlines: without its newlines,
    the result of [convert_to_markdown] is the converted and link-substituted
    text without its newlines. *)
Theorem convert_to_markdown_keeps_text html_content url_mapping :
  filter (fun c => c <> newline) (convert_to_markdown html_content url_mapping)
  = filter (fun c => c <> newline)
           (substitute_links url_mapping (markdownify html_content)).
Proof. apply squeeze_newlines_keeps_text. Qed.

End CleanUp.

(** X14. The newline clean-up leaves a text without three newlines in a row
    as it is, so that applying it twice is applying it once. *)
Theorem squeeze_newlines_stable (s : pystr) :
  (Str.occurs blank_run s = false -> squeeze_newlines 0 s = s) /\
  squeeze_newlines 0 (squeeze_newlines 0 s) = squeeze_newlines 0 s.
Proof.
  split.
  - intros Hocc. rewrite squeeze_newlines_unchanged; [done | lia |].
    apply occurs_runs_below_three; (done || lia).
  - rewrite squeeze_newlines_unchanged; [done | lia |].
    apply squeeze_newlines_runs.
Qed.

(** ** Diagram embeds *)

Lemma startswith_app (p s : pystr) : Str.startswith p (p ++ s) = true.
Proof.
  induction p as [|a p IH]; [done|]. simpl app.
  by rewrite startswith_cons, N.eqb_refl, IH.
Qed.

Lemma match_drawio_opening (s : pystr) n :
  match_drawio s = Some n -> Str.startswith drawio_open s = true.
Proof. unfold match_drawio. by destruct (Str.startswith drawio_open s). Qed.

Lemma drawio_scan_no_opening (s : pystr) :
  Str.occurs drawio_open s = false -> drawio_scan 0 s = s.
Proof.
  induction s as [|c t IH]; [done|]. rewrite occurs_cons.
  intros Hocc. apply orb_false_iff in Hocc as [Hstart Hocc].
  cbn [drawio_scan]. destruct (match_drawio (c :: t)) as [n|] eqn:Hm.
  - apply match_drawio_opening in Hm. congruence.
  - by rewrite IH.
Qed.

(** X15. [handle_drawio_embeds] leaves a page body in which the opening
    literal of a structured macro does not occur as it is. *)
Theorem handle_drawio_embeds_no_macro (html_content : pystr) :
  Str.occurs drawio_open html_content = false ->
  handle_drawio_embeds html_content = html_content.
Proof. apply drawio_scan_no_opening. Qed.

Lemma handle_drawio_embeds_no_macro_witness :
  handle_drawio_embeds (of_string "<p>Hi <img src=logo.png></p>")
  = of_string "<p>Hi <img src=logo.png></p>".
Proof. apply handle_drawio_embeds_no_macro. vm_compute. reflexivity. Defined.

Lemma drawio_scan_plain_prefix (pre s : pystr) :
  lt_sign ∉ pre -> drawio_scan 0 (pre ++ s) = pre ++ drawio_scan 0 s.
Proof.
  induction pre as [|c pre IH]; intros Hpre; [done|].
  apply not_elem_of_cons in Hpre as [Hc Hpre]. simpl app.
  cbn [drawio_scan]. destruct (match_drawio (c :: pre ++ s)) as [n|] eqn:Hm.
  - apply match_drawio_opening in Hm.
    change drawio_open
      with (lt_sign :: of_string "ac:structured-macro") in Hm.
    rewrite startswith_cons in Hm. apply andb_true_iff in Hm as [Hm _].
    apply N.eqb_eq in Hm. congruence.
  - by rewrite IH.
Qed.

Lemma drawio_scan_skip (l s : pystr) :
  drawio_scan (length l) (l ++ s) = drawio_scan 0 s.
Proof. induction l as [|c l IH]; [done|]. simpl. apply IH. Qed.

Lemma find_first_char g (l s : pystr) :
  g ∉ l -> find [g] (l ++ g :: s) = Some (length l).
Proof.
  induction l as [|c l IH]; intros Hl.
  - simpl. by rewrite N.eqb_refl.
  - apply not_elem_of_cons in Hl as [Hc Hl]. simpl app. cbn [find].
    rewrite startswith_cons.
    assert ((g =? c) = false) as -> by (by apply N.eqb_neq).
    simpl. by rewrite IH.
Qed.

Lemma match_drawio_block (attrs body rest : pystr) :
  gt_sign ∉ attrs ->
  Str.occurs drawio_name attrs = true ->
  find drawio_close (body ++ drawio_close ++ rest) = Some (length body) ->
  match_drawio (drawio_block attrs body ++ rest)
  = Some (length (drawio_block attrs body)).
Proof.
  intros Hattrs Hname Hclose. unfold match_drawio, drawio_block.
  rewrite <- !app_assoc, startswith_app, drop_app_length.
  change ([gt_sign] ++ body ++ drawio_close ++ rest)
    with (gt_sign :: body ++ drawio_close ++ rest).
  rewrite find_first_char by done.
  rewrite take_app_length, Hname.
  rewrite (cons_middle gt_sign attrs), app_assoc.
  replace (S (length attrs)) with (length (attrs ++ [gt_sign]))
    by (rewrite length_app; simpl; lia).
  rewrite drop_app_length, Hclose. f_equal.
  rewrite !length_app. simpl. lia.
Qed.

(** X16. A diagram macro that follows text without [<] is replaced, once,
    by the placeholder: the macro runs from the opening literal, through a
    tag without [>] that names [drawio], to the first closing literal after
    the tag; the text before it is kept and the text after it is handled in
    turn. *)
Theorem handle_drawio_embeds_block (pre attrs body rest : pystr) :
  lt_sign ∉ pre ->
  gt_sign ∉ attrs ->
  Str.occurs drawio_name attrs = true ->
  find drawio_close (body ++ drawio_close ++ rest) = Some (length body) ->
  handle_drawio_embeds (pre ++ drawio_block attrs body ++ rest)
  = pre ++ drawio_placeholder ++ handle_drawio_embeds rest.
Proof.
  intros Hpre Hattrs Hname Hclose. unfold handle_drawio_embeds.
  rewrite drawio_scan_plain_prefix by done. f_equal.
  pose proof (match_drawio_block attrs body rest Hattrs Hname Hclose) as Hm.
  destruct (drawio_block attrs body) as [|c block] eqn:Hblock.
  { by apply (f_equal length) in Hblock. }
  change ((c :: block) ++ rest) with (c :: (block ++ rest)) in *.
  cbn [drawio_scan]. rewrite Hm. f_equal.
  apply drawio_scan_skip.
Qed.

Lemma handle_drawio_embeds_block_witness :
  handle_drawio_embeds
    (of_string "Diagram: "
     ++ drawio_block (of_string " " ++ drawio_name ++ of_string " ac:id=1")
                     (of_string "<ac:parameter>d</ac:parameter>")
     ++ of_string "<p>y</p>")
  = of_string "Diagram: " ++ drawio_placeholder
    ++ handle_drawio_embeds (of_string "<p>y</p>").
Proof.
  apply handle_drawio_embeds_block.
  - apply (bool_decide_unpack _). by vm_compute.
  - apply (bool_decide_unpack _). by vm_compute.
  - vm_compute. reflexivity.
  - vm_compute. reflexivity.
Defined.

(** ** Page export *)

Section PageFootprint.

Context `{C : Collaborators}.

Lemma download_attachments_in_page_dir page_id page_path :
  Forall (in_page_dir page_path) (download_attachments page_id page_path).1.
Proof.
  unfold download_attachments, download_listed.
  destruct (get_attachments page_id) as [[|a0 results]|]; [constructor| |constructor].
  destruct (mkdir_ok _); [|constructor].
  rewrite download_loop_events. simpl. constructor.
  - right; left. done.
  - apply Forall_fmap, Forall_forall. intros a _. simpl.
    right; right; left. by eexists _, _.
Qed.

(** X17. A successful [export_page] touches nothing outside the directory
    of the page: it creates that directory first, may create its
    [attachments] directory and write files in it, and writes [index.md]
    last. *)
Theorem export_page_footprint page_paths page page_path events :
  page_paths !! page_id page = Some page_path ->
  export_page page_paths page = Some events ->
  Forall (in_page_dir page_path) events /\
  head events = Some (Mkdir page_path) /\
  exists text,
    last events
    = Some (WriteText (joinpath page_path (of_string "index.md")) text).
Proof.
  intros Hpath. unfold export_page. rewrite Hpath.
  destruct (mkdir_ok page_path); [|done].
  pose proof (download_attachments_in_page_dir (page_id page) page_path) as Hdl.
  destruct (download_attachments (page_id page) page_path) as [evs m].
  destruct (write_ok _); [|done]. intros [= <-]. split_and!.
  - constructor; [by left|]. apply Forall_app. split; [done|].
    apply Forall_singleton. right; right; right. by eexists.
  - done.
  - eexists. rewrite app_comm_cons. apply last_snoc.
Qed.

End PageFootprint.

Lemma export_page_footprint_witness :
  let C := Sample.env (Some [Sample.diagram]) (Sample.always []) in
  let page_path : Path := joinpath Sample.out (of_string "Root") in
  exists events,
    export_page {[ of_string "1" := page_path ]} Sample.root_page = Some events /\
    Forall (in_page_dir page_path) events /\
    head events = Some (Mkdir page_path) /\
    exists text,
      last events
      = Some (WriteText (joinpath page_path (of_string "index.md")) text).
Proof.
  intros C page_path.
  destruct (export_page {[ of_string "1" := page_path ]} Sample.root_page)
    as [events|] eqn:Hrun; [|by vm_compute in Hrun].
  exists events. split; [done|].
  apply (@export_page_footprint C {[ of_string "1" := page_path ]}
           Sample.root_page page_path events); [|done].
  apply lookup_singleton_eq.
Defined.

(** ** The further properties on the sample space *)

Lemma determine_page_paths_covers_witness :
  let C := Sample.env None (Sample.always []) in
  exists page_paths,
    determine_page_paths 3 (build_hierarchy Sample.space) Sample.out ∅
      = Some page_paths /\
    forall k, is_Some (page_paths !! k) <-> k ∈ export_page_ids Sample.space.
Proof.
  intros C.
  apply (@determine_page_paths_covers C Sample.space Sample.out 3).
  - apply (bool_decide_unpack _). by vm_compute.
  - simpl. lia.
  - intros p q Hp Hq. apply list_elem_of_In in Hp, Hq. simpl in Hp, Hq.
    destruct Hp as [<-|[<-|[<-|[]]]]; destruct Hq as [<-|[<-|[<-|[]]]];
      intros Hparent; first [ by vm_compute in Hparent | simpl; lia ].
Defined.

Lemma determine_page_paths_collisions_witness :
  let C := Sample.env None (Sample.always []) in
  let pages := [Sample.slash_page; Sample.blank_page] in
  exists page_paths,
    determine_page_paths 2 (build_hierarchy pages) Sample.out ∅
      = Some page_paths /\
    page_paths !! page_id Sample.slash_page
    = page_paths !! page_id Sample.blank_page.
Proof.
  intros C pages.
  destruct (@determine_page_paths_collisions C pages Sample.out 2)
    as (page_paths & Hrun & Hsame).
  - apply (bool_decide_unpack _). by vm_compute.
  - simpl. lia.
  - exists page_paths. split; [done|].
    apply Hsame; [left | right; left | reflexivity | left; by split].
Defined.

Lemma determine_page_paths_follow_ancestors_witness :
  let C := Sample.env None (Sample.always []) in
  exists page_paths,
    determine_page_paths 3 (build_hierarchy Sample.space) Sample.out ∅
      = Some page_paths /\
    page_paths !! page_id Sample.grand_child_page
    = Some [of_string "out"; of_string "Root"; of_string "Child";
            of_string "Grand_Child"].
Proof.
  intros C.
  destruct (@determine_page_paths_follow_ancestors C Sample.space Sample.out 3)
    as (page_paths & Hrun & Hchain).
  - apply (bool_decide_unpack _). by vm_compute.
  - simpl. lia.
  - intros p l a Hp. revert l a.
    apply list_elem_of_In in Hp. simpl in Hp.
    destruct Hp as [<-|[<-|[<-|[]]]]; intros l a Hanc; simpl in Hanc.
    + by destruct l.
    + exists Sample.root_page. destruct l as [|? [|? ?]]; [|done..].
      injection Hanc as <-. split_and!; [left | done | done].
    + exists Sample.child_page. destruct l as [|? [|? [|? ?]]]; [done| |done..].
      injection Hanc as <- <-. split_and!; [right; left | done | done].
  - exists page_paths. split; [done|].
    apply (Hchain Sample.grand_child_page [Sample.root_page; Sample.child_page]).
    + right; right; left.
    + repeat constructor.
    + reflexivity.
Defined.

Lemma download_attachments_last_writer_witness :
  let C := Sample.env (Some [Sample.first_a; Sample.second_b])
                      (Sample.always []) in
  Dict.get (of_string "/x")
           (download_attachments (of_string "1") Sample.out).2
  = Some (of_string "attachments/b.png").
Proof.
  intros C.
  apply (@download_attachments_last_writer C (of_string "1") Sample.out
           [Sample.first_a; Sample.second_b] (of_string "/x"));
    reflexivity.
Defined.

(** ** Index and orchestration *)

Lemma thread_none {A B} (g : A -> B -> option A) (l : list B) :
  fold_left (fun acc x => match acc with Some a => g a x | None => None end)
            l None = None.
Proof. by induction l. Qed.

Lemma thread_some_inv {A B} (g : A -> B -> option A) (l : list B) a a' :
  fold_left (fun acc x => match acc with Some a => g a x | None => None end)
            l (Some a) = Some a' ->
  forall x, x ∈ l -> exists a1 a2, g a1 x = Some a2.
Proof.
  revert a. induction l as [|y l IH]; intros a Hrun x Hx.
  - by apply elem_of_nil in Hx.
  - simpl in Hrun. destruct (g a y) as [a1|] eqn:Hy.
    + apply elem_of_cons in Hx as [->|Hx]; [by exists a, a1 | by eapply IH].
    + by rewrite thread_none in Hrun.
Qed.

Lemma thread_some {A B} (g : A -> B -> option A) (l : list B) a :
  (forall a x, x ∈ l -> is_Some (g a x)) ->
  is_Some (fold_left
             (fun acc x => match acc with Some a => g a x | None => None end)
             l (Some a)).
Proof.
  revert a. induction l as [|y l IH]; intros a Hg; [by eexists|].
  simpl. destruct (Hg a y) as [a1 ->]; [left|].
  apply IH. intros a2 x Hx. apply Hg. by right.
Qed.

Lemma insert_by_title_elem (page x : Page) l :
  x ∈ insert_by_title page l <-> x = page \/ x ∈ l.
Proof.
  induction l as [|y l IH]; simpl.
  - rewrite list_elem_of_singleton, elem_of_nil. tauto.
  - destruct (str_lt _ _); rewrite !elem_of_cons, ?IH; tauto.
Qed.

Lemma sorted_by_title_elem (x : Page) l :
  x ∈ sorted_by_title l <-> x ∈ l.
Proof.
  induction l as [|y l IH]; [done|]. unfold sorted_by_title in *. simpl.
  rewrite insert_by_title_elem, elem_of_cons, IH. tauto.
Qed.

Section Orchestration.

Context `{C : Collaborators} `{Src : PageSource} `{I : !IndexCollaborators C}.

Lemma process_page_fits depth cm page parent_path paths paths' :
  process_page depth cm page parent_path paths = Some paths' ->
  nesting_fits depth cm page.
Proof.
  revert page parent_path paths paths'.
  induction depth as [|d IH]; intros page parent_path paths paths' Hrun; [done|].
  simpl in Hrun. simpl. intros c Hc.
  destruct (thread_some_inv _ _ _ _ Hrun c Hc) as (p1 & p2 & Hcall).
  by eapply IH.
Qed.

Lemma export_pages_inv page_paths pages events0 events :
  export_pages page_paths pages events0 = Some events ->
  exists page_events,
    Forall2 (fun page evs => export_page page_paths page = Some evs)
            pages page_events /\
    events = events0 ++ concat page_events.
Proof.
  unfold export_pages. revert events0.
  induction pages as [|p pages IH]; intros events0 Hrun.
  - injection Hrun as <-. exists []. split; [constructor|].
    by rewrite app_nil_r.
  - simpl in Hrun. destruct (export_page page_paths p) as [evs|] eqn:Hp.
    + destruct (IH _ Hrun) as (rest & Hall & ->).
      exists (evs :: rest). split; [by constructor|].
      simpl. by rewrite app_assoc.
    + by rewrite thread_none in Hrun.
Qed.

(** X18. A successful [export_space] creates the output directory first;
    when the fetch gives no page it does nothing else, and otherwise it
    exports every fetched page, in the order of the fetch and with the paths
    that [determine_page_paths] assigned, and writes [INDEX.md] once, as its
    last action. *)
Theorem export_space_events output_dir since_date fuel depth events :
  export_space output_dir since_date fuel depth = Some events ->
  (fetch_all_pages since_date fuel = Some [] /\ events = [Mkdir output_dir]) \/
  (exists pages page_paths page_events text,
     fetch_all_pages since_date fuel = Some pages /\ pages <> [] /\
     determine_page_paths depth (build_hierarchy pages) output_dir ∅
       = Some page_paths /\
     Forall2 (fun page evs => export_page page_paths page = Some evs)
             pages page_events /\
     events = Mkdir output_dir :: concat page_events ++
              [WriteText (joinpath output_dir (of_string "INDEX.md")) text]).
Proof.
  unfold export_space. destruct (mkdir_ok output_dir); [|done].
  destruct (fetch_all_pages since_date fuel) as [[|p pages]|]; [| |done].
  { intros [= <-]. by left. }
  set (all := p :: pages).
  destruct (determine_page_paths _ _ _ _) as [page_paths|] eqn:Hpaths; [|done].
  destruct (export_pages page_paths all _) as [evs|] eqn:Hpages; [|done].
  destruct (create_index _ _ _ _ _) as [index_events|] eqn:Hindex; [|done].
  intros [= <-]. right.
  apply export_pages_inv in Hpages as (page_events & Hall & ->).
  unfold create_index in Hindex.
  destruct (fold_left _ _ _) as [text|]; [|done].
  destruct (write_ok _); [|done]. injection Hindex as <-.
  exists all, page_paths, page_events, text.
  split_and!; [done | done | done | done |]. by rewrite <- app_assoc.
Qed.

Lemma determine_page_paths_fits depth hierarchy (output_dir : Path) paths0 paths :
  determine_page_paths depth hierarchy output_dir paths0 = Some paths ->
  forall r, r ∈ roots hierarchy ->
    nesting_fits depth (children_map hierarchy) r.
Proof.
  unfold determine_page_paths. intros Hrun r Hr.
  destruct (thread_some_inv _ _ _ _ Hrun r Hr) as (p1 & p2 & Hcall).
  by eapply process_page_fits.
Qed.

Lemma add_page_to_index_ok (paths : gmap pystr Path) cm (output_dir : Path) :
  (forall c a, child_of cm c a ->
     paths !! page_id c = (fun y => step_path y c) <$> paths !! a) ->
  (forall y t, is_Some (relative_to y output_dir) ->
     is_Some (relative_to (joinpath y (sanitize_filename t)) output_dir)) ->
  forall depth page level content x,
    nesting_fits depth cm page ->
    paths !! page_id page = Some x ->
    is_Some (relative_to x output_dir) ->
    is_Some (add_page_to_index depth paths cm output_dir page level content).
Proof.
  intros Hlinks Hrel depth.
  induction depth as [|d IH]; intros page level content x Hfits Hx Hx_rel; [done|].
  cbn [add_page_to_index]. rewrite Hx.
  destruct Hx_rel as [rel Hx_rel]. rewrite Hx_rel.
  apply thread_some. intros content' c Hc.
  apply (proj1 (sorted_by_title_elem _ _)) in Hc.
  assert (Hchild : child_of cm c (page_id page)).
  { destruct (cm !! page_id page) as [l|] eqn:Hl; simpl in Hc; [by exists l|].
    by apply elem_of_nil in Hc. }
  cbn [nesting_fits] in Hfits. eapply IH.
  - by apply Hfits.
  - rewrite (Hlinks c _ Hchild), Hx. done.
  - apply Hrel. by exists rel.
Qed.

(** X19. On a file system that refuses nothing, with [relative_to]
    accepting a path again once a sanitized title is joined to it (the
    output directory itself included), an export whose fetched pages have
    unique ids and parents with shorter ancestor chains runs to its end: no
    lookup of a path fails and no call nests deeper than the number of
    pages. *)
Theorem export_space_completes output_dir since_date fuel depth pages :
  (forall p, mkdir_ok p = true) ->
  (forall p, write_ok p = true) ->
  (forall t, is_Some (relative_to (joinpath output_dir (sanitize_filename t))
                                 output_dir)) ->
  (forall y t, is_Some (relative_to y output_dir) ->
     is_Some (relative_to (joinpath y (sanitize_filename t)) output_dir)) ->
  fetch_all_pages since_date fuel = Some pages ->
  NoDup (page_id <$> pages) ->
  (length pages <= depth)%nat ->
  (forall p q, p ∈ pages -> q ∈ pages -> parent_of p = Some (page_id q) ->
     (length (page_ancestors q) < length (page_ancestors p))%nat) ->
  is_Some (export_space output_dir since_date fuel depth).
Proof.
  intros Hmk Hwr Hrel1 Hrel2 Hfetch Hids Hdepth Hrank.
  unfold export_space. rewrite Hmk, Hfetch.
  destruct pages as [|p0 pages0] eqn:Hpages; [by eexists|]. rewrite <- Hpages in *.
  clear p0 pages0 Hpages.
  destruct (hierarchy_paths pages output_dir depth Hids Hdepth)
    as (paths & Hrun & Hroots & Hchildren & _).
  rewrite Hrun.
  assert (Hexport : is_Some (export_pages paths pages [Mkdir output_dir])).
  { apply thread_some. intros events page Hpage.
    destruct (ranked_pages_have_paths pages output_dir paths
                Hroots Hchildren Hrank page Hpage) as [x Hx].
    unfold export_page. rewrite Hx, Hmk.
    destruct (download_attachments _ _) as [evs m]. rewrite Hwr. by eexists. }
  destruct Hexport as [events ->].
  assert (Hindex : is_Some (create_index depth paths output_dir pages
                              (build_hierarchy pages))).
  { unfold create_index.
    match goal with
    | |- is_Some (match ?f with _ => _ end) =>
        assert (is_Some f) as [content ->]
    end.
    - apply thread_some. intros content r Hr.
      apply (proj1 (sorted_by_title_elem _ _)) in Hr.
      pose proof (determine_page_paths_fits _ _ _ _ _ Hrun r Hr) as Hfits.
      rewrite build_hierarchy_roots in Hr.
      apply list_elem_of_filter in Hr as [Hr_root Hr].
      eapply add_page_to_index_ok; [|done|done| |].
      + intros c a Hca. apply build_hierarchy_child_of in Hca as [Hc Hca].
        by apply Hchildren.
      + by apply Hroots.
      + apply Hrel1.
    - rewrite Hwr. by eexists. }
  destruct Hindex as [index_events ->]. by eexists.
Qed.

End Orchestration.

(** ** The orchestration on the sample space *)

Lemma sample_joinpath_cases (y : Sample.Path) (s : pystr) :
  Sample.joinpath y s = y \/ Sample.joinpath y s = y ++ [s].
Proof. unfold Sample.joinpath. repeat case_match; auto. Qed.

Lemma sample_relative_to_join (y output_dir : Sample.Path) (s : pystr) :
  is_Some (Sample.relative_to y output_dir) ->
  is_Some (Sample.relative_to (Sample.joinpath y s) output_dir).
Proof.
  unfold Sample.relative_to. case_decide as Hy; [|by intros [? ?]]. intros _.
  destruct (sample_joinpath_cases y s) as [->| ->].
  - rewrite decide_True by done. by eexists.
  - rewrite decide_True; [by eexists|].
    rewrite take_app_le; [done|].
    rewrite <- Hy at 1. rewrite length_take. lia.
Qed.

Lemma sample_relative_to_self (output_dir : Sample.Path) (s : pystr) :
  is_Some (Sample.relative_to (Sample.joinpath output_dir s) output_dir).
Proof.
  apply sample_relative_to_join. unfold Sample.relative_to.
  rewrite decide_True; [by eexists|]. by rewrite take_ge.
Qed.

Lemma export_space_completes_witness :
  is_Some (@export_space (Sample.env (Some [Sample.diagram]) (Sample.always []))
             Sample.source (Sample.index_env _ _)
             Sample.out (Some Sample.since) 1 3).
Proof.
  apply (@export_space_completes
           (Sample.env (Some [Sample.diagram]) (Sample.always []))
           Sample.source (Sample.index_env _ _)
           Sample.out (Some Sample.since) 1 3
           [Sample.root_page; Sample.child_page]).
  - reflexivity.
  - reflexivity.
  - intros t. apply sample_relative_to_self.
  - intros y t. apply sample_relative_to_join.
  - reflexivity.
  - apply (bool_decide_unpack _). by vm_compute.
  - simpl. lia.
  - intros p q Hp Hq. apply list_elem_of_In in Hp, Hq. simpl in Hp, Hq.
    destruct Hp as [<-|[<-|[]]]; destruct Hq as [<-|[<-|[]]];
      intros Hparent; first [ by vm_compute in Hparent | simpl; lia ].
Defined.

Lemma export_space_events_witness :
  let C := Sample.env None (Sample.always []) in
  exists pages page_paths page_events text,
    @fetch_all_pages Sample.source None 1 = Some pages /\ pages <> [] /\
    determine_page_paths 3 (build_hierarchy pages) Sample.out ∅
      = Some page_paths /\
    Forall2 (fun page evs => export_page page_paths page = Some evs)
            pages page_events /\
    @export_space C Sample.source (Sample.index_env _ _) Sample.out None 1 3
    = Some (Mkdir Sample.out :: concat page_events ++
            [WriteText (joinpath Sample.out (of_string "INDEX.md")) text]).
Proof.
  intros C.
  destruct (@export_space C Sample.source (Sample.index_env _ _)
              Sample.out None 1 3) as [events|] eqn:Hrun;
    [|by vm_compute in Hrun].
  destruct (@export_space_events C Sample.source (Sample.index_env _ _)
              Sample.out None 1 3 events Hrun)
    as [[Hnone _]|(pages & page_paths & page_events & text & H)].
  - by vm_compute in Hnone.
  - exists pages, page_paths, page_events, text.
    destruct H as (? & ? & ? & ? & ->). done.
Defined.

(** The index of the chain: a child under its parent, two spaces deeper. *)
Example chain_index :
  let C := Sample.env None (Sample.always []) in
  exists events,
    @export_space C Sample.source (Sample.index_env _ _) Sample.out None 1 3
      = Some events /\
    last events
    = Some (WriteText [of_string "out"; of_string "INDEX.md"]
              (of_string "# DOCS Space Export" ++ [newline; newline]
               ++ of_string "Exported 3 pages." ++ [newline; newline]
               ++ of_string "## Page Structure" ++ [newline; newline]
               ++ of_string "- [Root](Root/index.md)" ++ [newline]
               ++ of_string "  - [Child](Root/Child/index.md)" ++ [newline]
               ++ of_string "    - [Grand Child](Root/Child/Grand_Child/index.md)"
               ++ [newline])).
Proof. intros C. eexists. split; [vm_compute; reflexivity|]. reflexivity. Qed.

(** ** Link substitution *)

Lemma replace_scan_skip old new (l s : pystr) :
  Str.replace_scan old new (length l) (l ++ s) = Str.replace_scan old new 0 s.
Proof. induction l as [|c l IH]; [done|]. simpl. apply IH. Qed.

Lemma replace_scan_first old new (pre post : pystr) :
  old <> [] ->
  find old (pre ++ old ++ post) = Some (length pre) ->
  Str.replace_scan old new 0 (pre ++ old ++ post)
  = pre ++ new ++ Str.replace_scan old new 0 post.
Proof.
  intros Hold. induction pre as [|c pre IH]; intros Hfind.
  - destruct old as [|a l]; [done|]. simpl app.
    cbn [Str.replace_scan].
    change (a :: l ++ post) with ((a :: l) ++ post).
    rewrite startswith_app. f_equal. simpl. apply replace_scan_skip.
  - simpl app in *. cbn [find] in Hfind. cbn [Str.replace_scan].
    destruct (Str.startswith old (c :: pre ++ old ++ post)); [done|].
    f_equal. apply IH.
    destruct (find old (pre ++ old ++ post)) as [n|]; [|done].
    simpl in Hfind. congruence.
Qed.

(** X20. [str.replace] as the link rewriting uses it: up to and including
    the first occurrence of a non-empty key, the text is copied with the
    occurrence replaced by the local path, and the rest is rewritten in
    turn. *)
Theorem replace_first_occurrence old new (pre post : pystr) :
  old <> [] ->
  find old (pre ++ old ++ post) = Some (length pre) ->
  Str.replace old new (pre ++ old ++ post)
  = pre ++ new ++ Str.replace old new post.
Proof.
  intros Hold Hfind. unfold Str.replace.
  destruct old as [|a l]; [done|]. by apply replace_scan_first.
Qed.

Lemma replace_first_occurrence_witness :
  Str.replace (of_string "diagram v1.png")
              (of_string "attachments/diagram_v1.png")
              (of_string "![d](" ++ of_string "diagram v1.png" ++ of_string ")")
  = of_string "![d](" ++ of_string "attachments/diagram_v1.png"
    ++ Str.replace (of_string "diagram v1.png")
                   (of_string "attachments/diagram_v1.png") (of_string ")").
Proof.
  apply replace_first_occurrence; [discriminate | vm_compute; reflexivity].
Defined.

Section Unreferenced.

Context `{C : Collaborators}.

(** X21. When no key of [url_mapping] occurs in the converted text, the link
    rewriting changes nothing: [convert_to_markdown] returns what it returns
    with an empty mapping. *)
Theorem convert_to_markdown_unreferenced html_content (url_mapping : Dict.t) :
  (forall k v, (k, v) ∈ url_mapping ->
               Str.occurs k (markdownify html_content) = false) ->
  convert_to_markdown html_content url_mapping
  = convert_to_markdown html_content [].
Proof.
  intros Hkeys. unfold convert_to_markdown.
  by rewrite substitute_links_absent.
Qed.

End Unreferenced.

Lemma convert_to_markdown_unreferenced_witness :
  let C := Sample.env None (Sample.always []) in
  let m := [(of_string "diagram v1.png",
             of_string "attachments/diagram_v1.png")] in
  convert_to_markdown (of_string "<p>Hi</p>") m
  = convert_to_markdown (of_string "<p>Hi</p>") [].
Proof.
  intros C m. apply (@convert_to_markdown_unreferenced C).
  intros k v Hin. apply list_elem_of_singleton in Hin. injection Hin as -> ->.
  vm_compute. reflexivity.
Defined.

Lemma download_attachments_effects_witness :
  let C := Sample.env (Some [Sample.diagram; Sample.notes])
             (Sample.all_but (Sample.base_url ++ att_download Sample.diagram)) in
  let dir : Path := joinpath Sample.out (of_string "attachments") in
  (download_attachments (of_string "1") Sample.out).1
  = [Mkdir dir; written_file dir Sample.notes].
Proof.
  intros C dir.
  destruct (@download_attachments_effects C (of_string "1") Sample.out)
    as [H _].
  apply (H [Sample.diagram; Sample.notes]); [reflexivity | done | reflexivity].
Defined.

Lemma squeeze_newlines_stable_witness :
  squeeze_newlines 0 (of_string "a" ++ [newline; newline] ++ of_string "b")
  = of_string "a" ++ [newline; newline] ++ of_string "b".
Proof.
  apply (proj1 (squeeze_newlines_stable
                  (of_string "a" ++ [newline; newline] ++ of_string "b"))).
  vm_compute. reflexivity.
Defined.
